(** * A shallow embedding of postcss-modular-type (src/src/index.ts)

    The plugin creator resolves its options over a module-level
    [defaultConfig] object with [Object.assign], computes a [Map] of CSS
    custom properties (one per scale step) and returns two postcss
    listeners: [Rule] (directive expansion) and [Declaration] (inline
    replacement).

    JavaScript numbers are kept abstract: the development is parametric in
    a number type [num] with the operations the code uses ([-], [*], [/],
    [Math.pow] at an integer exponent, and the digit string of
    [Number.prototype.toFixed]).  The integer-valued options ([minStep],
    [maxStep], [precision]) and the loop counter are integers ([Z]).
    A rational instance at the end of the file is used to evaluate the
    code on concrete configurations. *)

From Stdlib Require Import ZArith QArith Qabs.
From stdpp Require Import base list strings pretty.

Local Set Warnings "-register-all".

(** ** Enumerations of the configuration *)

Inductive SuffixType := Numbered | Values.
Inductive Unit := Px | Rem.

(** [`${unit}`] *)
Definition unit_str (u : Unit) : string :=
  match u with Px => "px" | Rem => "rem" end.

(** ["\n"] *)
Definition nl : string := String (Ascii.ascii_of_nat 10) EmptyString.

(** [Array.prototype.toString] on an array of strings: [join(",")]. *)
Fixpoint js_join (xs : list string) : string :=
  match xs with
  | [] => ""
  | [x] => x
  | x :: xs' => x +:+ "," +:+ js_join xs'
  end.

(** [String.prototype.includes]. *)
Definition includes (s sub : string) : bool :=
  match String.index 0 sub s with Some _ => true | None => false end.

(** ** The JavaScript [Map<string, string>]: insertion-ordered, [set] on an
    existing key replaces the value and keeps the key's position. *)

Definition JsMap := list (string * string).

Fixpoint map_set (m : JsMap) (k v : string) : JsMap :=
  match m with
  | [] => [(k, v)]
  | (k', v') :: m' =>
      if String.eqb k k' then (k, v) :: m' else (k', v') :: map_set m' k v
  end.

Fixpoint map_get (m : JsMap) (k : string) : option string :=
  match m with
  | [] => None
  | (k', v') :: m' => if String.eqb k k' then Some v' else map_get m' k
  end.

(** Errors raised by the plugin creator: the [new Error("Insufficient
    suffixes passed. ...")] of the suffix check, and the [RangeError] that
    [toFixed] raises for a digit count outside [0..100]. *)
Inductive Err := ConfigurationError (msg : string) | RangeError.

Inductive res (A : Type) := Ok (a : A) | Throw (e : Err).
Arguments Ok {A} a.
Arguments Throw {A} e.

(** ** Nodes of a postcss document *)

Inductive node :=
  | Rule (selector : string) (nodes : list node)
  | AtRule (name params : string) (nodes : list node)
  | Decl (prop value : string)
  | Comment (text : string).

(** Nodes produced by [postcss-value-parser]: a type tag ("word",
    "function", "space", "div", "string", ...), the literal text, and the
    children of a "function" node. *)
Inductive vnode := VNode (type : string) (value : string) (nodes : list vnode).

Module Src.

Section Plugin.

Variable num : Type.
(** A numeric literal of the source. *)
Variable lit : Q -> num.
Variables sub mul div : num -> num -> num.
(** [Math.pow(x, n)] at an integer [n]. *)
Variable pow : num -> Z -> num.
(** The string [x.toFixed(f)] for [0 <= f <= 100]. *)
Variable fmt : num -> Z -> string.
(** The tokenizer [postcss-value-parser] (an external library). *)
Variable valueParser : string -> list vnode.

(** ** Configuration ([type Config]) *)

Record Config := mkConfig {
  minScreenWidth : num;
  maxScreenWidth : num;
  minFontSize : num;
  maxFontSize : num;
  minRatio : num;
  maxRatio : num;
  minStep : Z;
  maxStep : Z;
  precision : Z;
  prefix : string;
  rootFontSize : num;
  suffixType : SuffixType;
  suffixValues : list string;
  unit_ : Unit;
  replaceInline : bool;
  generatorDirective : string
}.

(** [Partial<Config>]: [None] is an absent property. *)
Record PartialConfig := mkPartial {
  o_minScreenWidth : option num;
  o_maxScreenWidth : option num;
  o_minFontSize : option num;
  o_maxFontSize : option num;
  o_minRatio : option num;
  o_maxRatio : option num;
  o_minStep : option Z;
  o_maxStep : option Z;
  o_precision : option Z;
  o_prefix : option string;
  o_rootFontSize : option num;
  o_suffixType : option SuffixType;
  o_suffixValues : option (list string);
  o_unit : option Unit;
  o_replaceInline : option bool;
  o_generatorDirective : option string
}.

(** [{}] *)
Definition no_opts : PartialConfig :=
  mkPartial None None None None None None None None None None None None None
    None None None.

Definition defaultConfig : Config := {|
  minScreenWidth := lit 320;
  maxScreenWidth := lit 1536;
  minFontSize := lit 16;
  maxFontSize := lit 20;
  minRatio := lit 1.2;
  maxRatio := lit 1.333;
  minStep := 2;
  maxStep := 5;
  precision := 2;
  prefix := "font-size-";
  rootFontSize := lit 16;
  suffixType := Numbered;
  suffixValues := ["xs"; "sm"; "base"; "md"; "lg"; "xl"; "xxl"; "xxxl"];
  unit_ := Rem;
  replaceInline := false;
  generatorDirective := "postcss-modular-type-generate"
|}.

Definition opt {A} (d : A) (o : option A) : A :=
  match o with Some x => x | None => d end.

(** [Object.assign(target, opts)]: copies every present property of [opts]
    onto [target]; the result is [target] itself, updated. *)
Definition object_assign (t : Config) (o : PartialConfig) : Config := {|
  minScreenWidth := opt (minScreenWidth t) (o_minScreenWidth o);
  maxScreenWidth := opt (maxScreenWidth t) (o_maxScreenWidth o);
  minFontSize := opt (minFontSize t) (o_minFontSize o);
  maxFontSize := opt (maxFontSize t) (o_maxFontSize o);
  minRatio := opt (minRatio t) (o_minRatio o);
  maxRatio := opt (maxRatio t) (o_maxRatio o);
  minStep := opt (minStep t) (o_minStep o);
  maxStep := opt (maxStep t) (o_maxStep o);
  precision := opt (precision t) (o_precision o);
  prefix := opt (prefix t) (o_prefix o);
  rootFontSize := opt (rootFontSize t) (o_rootFontSize o);
  suffixType := opt (suffixType t) (o_suffixType o);
  suffixValues := opt (suffixValues t) (o_suffixValues o);
  unit_ := opt (unit_ t) (o_unit o);
  replaceInline := opt (replaceInline t) (o_replaceInline o);
  generatorDirective := opt (generatorDirective t) (o_generatorDirective o)
|}.

(** ** The body of the plugin creator

    The [let]-bound variables that the body reassigns ([minScreenWidth],
    [maxScreenWidth], [minFontSize], [maxFontSize]) and the map
    [stepsMap] form the local state; the body runs in a state and error
    monad over it.  The other destructured options are read from the
    resolved configuration, which the body does not change. *)

Record Locals := mkLocals {
  l_minScreenWidth : num;
  l_maxScreenWidth : num;
  l_minFontSize : num;
  l_maxFontSize : num;
  l_stepsMap : JsMap
}.

Definition init_locals (c : Config) : Locals :=
  mkLocals (minScreenWidth c) (maxScreenWidth c) (minFontSize c)
    (maxFontSize c) [].

Definition M (A : Type) : Type := Locals -> res A * Locals.

Definition retM {A} (a : A) : M A := fun l => (Ok a, l).
Definition throwM {A} (e : Err) : M A := fun l => (Throw e, l).
Definition getM : M Locals := fun l => (Ok l, l).
Definition putM (l : Locals) : M unit := fun _ => (Ok tt, l).
Definition bindM {A B} (m : M A) (k : A -> M B) : M B :=
  fun l => match m l with
           | (Ok a, l') => k a l'
           | (Throw e, l') => (Throw e, l')
           end.

Local Notation "x <- m ;; k" := (bindM m (fun x => k))
  (at level 100, m at next level, right associativity).

(** [const baseIndex = maxStep - minStep - 1] *)
Definition baseIndex (c : Config) : Z := (maxStep c - minStep c - 1)%Z.

(** [const toRem = (pxValue) => pxValue / rootFontSize] *)
Definition toRem (c : Config) (pxValue : num) : num := div pxValue (rootFontSize c).

Definition suffix_error_message (c : Config) : string :=
  "Insufficient suffixes passed." +:+ nl +:+
  "Number of steps: " +:+ pretty (minStep c) +:+ "(minstep) + " +:+
  pretty (maxStep c) +:+ "(maxStep) + 1(baseStep) = " +:+
  pretty (minStep c + maxStep c + 1)%Z +:+ nl +:+
  "Number of suffixes: " +:+ pretty (length (suffixValues c)) +:+ nl +:+
  "Current suffix list: " +:+ js_join (suffixValues c) +:+ nl.

Definition is_values (t : SuffixType) : bool :=
  match t with Values => true | Numbered => false end.

(** [if (suffixType === "values" && suffixValues.length <= maxStep + minStep) throw ...] *)
Definition check_suffixes (c : Config) : M unit :=
  if is_values (suffixType c)
     && (Z.of_nat (length (suffixValues c)) <=? maxStep c + minStep c)%Z
  then throwM (ConfigurationError (suffix_error_message c))
  else retM tt.

(** [if (unit === "rem") { minScreenWidth = toRem(minScreenWidth); ... }] *)
Definition convert_units (c : Config) : M unit :=
  match unit_ c with
  | Rem =>
      l <- getM ;;
      putM (mkLocals (toRem c (l_minScreenWidth l)) (toRem c (l_maxScreenWidth l))
              (toRem c (l_minFontSize l)) (toRem c (l_maxFontSize l))
              (l_stepsMap l))
  | Px => retM tt
  end.

(** [x.toFixed(f)]: a [RangeError] unless [0 <= f <= 100]. *)
Definition toFixed (x : num) (f : Z) : M string :=
  if (0 <=? f)%Z && (f <=? 100)%Z then retM (fmt x f) else throwM RangeError.

(** The constants of one loop iteration. *)
Record StepOut := mkStepOut {
  so_power : Z;
  so_fsMinSize : num;
  so_fsMaxSize : num;
  so_slope : num;
  so_yIntersect : string;
  so_slopeVw : string;
  so_fsMinFinal : string;
  so_fsMaxFinal : string;
  so_key : string;
  so_value : string
}.

(** [suffixValues[step]]: [undefined] out of range. *)
Definition suffix_at (xs : list string) (step : Z) : string :=
  if (step <? 0)%Z then "undefined"
  else match xs !! Z.to_nat step with Some s => s | None => "undefined" end.

Definition step_entry (c : Config) (step : Z) : M StepOut :=
  l <- getM ;;
  let power := (step - baseIndex c)%Z in
  let minStepRatio := pow (minRatio c) power in
  let maxStepRatio := pow (maxRatio c) power in
  let fsMinSize := mul (l_minFontSize l) minStepRatio in
  let fsMaxSize := mul (l_maxFontSize l) maxStepRatio in
  let slope := div (sub fsMaxSize fsMinSize)
                   (sub (l_maxScreenWidth l) (l_minScreenWidth l)) in
  yIntersect <- toFixed (sub fsMinSize (mul slope (l_minScreenWidth l))) (precision c) ;;
  slopeVw <- toFixed (mul slope (lit 100)) (precision c) ;;
  fsMinFixed <- toFixed fsMinSize (precision c) ;;
  fsMaxFixed <- toFixed fsMaxSize (precision c) ;;
  let u := unit_str (unit_ c) in
  let fsMinFinal := fsMinFixed +:+ u in
  let fsMaxFinal := fsMaxFixed +:+ u in
  let key := match suffixType c with
             | Values => "--" +:+ prefix c +:+ suffix_at (suffixValues c) step
             | Numbered => "--" +:+ prefix c +:+ pretty power
             end in
  let value := "clamp(" +:+ fsMinFinal +:+ ",  " +:+ slopeVw +:+ "vw + " +:+
               yIntersect +:+ u +:+ " , " +:+ fsMaxFinal +:+ ")" in
  retM (mkStepOut power fsMinSize fsMaxSize slope yIntersect slopeVw
          fsMinFinal fsMaxFinal key value).

(** One iteration: compute the step, then [stepsMap.set(key, value)]. *)
Definition loop_body (c : Config) (step : Z) : M unit :=
  o <- step_entry c step ;;
  l <- getM ;;
  putM (mkLocals (l_minScreenWidth l) (l_maxScreenWidth l) (l_minFontSize l)
          (l_maxFontSize l) (map_set (l_stepsMap l) (so_key o) (so_value o))).

Fixpoint for_steps (c : Config) (ss : list Z) : M unit :=
  match ss with
  | [] => retM tt
  | s :: ss' => _ <- loop_body c s ;; for_steps c ss'
  end.

(** [for (let step = 0; step <= maxStep + minStep; step++)] *)
Definition steps (c : Config) : list Z :=
  map Z.of_nat (seq 0 (Z.to_nat (maxStep c + minStep c + 1))).

Definition body (c : Config) : M unit :=
  _ <- check_suffixes c ;;
  _ <- convert_units c ;;
  for_steps c (steps c).

Definition run_body (c : Config) : res unit * Locals := body c (init_locals c).

(** The scale mapping of a resolved configuration ([stepsMap]). *)
Definition generate (c : Config) : res JsMap :=
  match run_body c with
  | (Ok _, l) => Ok (l_stepsMap l)
  | (Throw e, _) => Throw e
  end.

(** ** The plugin object and the module state

    [defaultConfig] is a module-level object; [Object.assign(defaultConfig,
    opts)] updates it in place, so the module state after a call is the
    resolved configuration of that call. *)

Record PluginObj := mkPlugin {
  stepsMap : JsMap;
  p_prefix : string;
  p_replaceInline : bool;
  p_generatorDirective : string
}.

Definition plugin (opts : PartialConfig) (dc : Config) : res PluginObj * Config :=
  let resolvedOptions := object_assign dc opts in
  (match generate resolvedOptions with
   | Ok m => Ok (mkPlugin m (prefix resolvedOptions) (replaceInline resolvedOptions)
                  (generatorDirective resolvedOptions))
   | Throw e => Throw e
   end, resolvedOptions).

(** ** The [Rule] listener: directive expansion *)

(** [new Declaration({ prop: key, value })] for each entry of [stepsMap]. *)
Definition decls_of (m : JsMap) : list node := map (fun kv => Decl kv.1 kv.2) m.

(** [container.walkComments(cb)] with the callback of the [Rule] listener:
    every descendant comment whose text is the directive is replaced by the
    declarations; the inserted nodes are not walked. *)
Fixpoint walk_comments_node (d : string) (m : JsMap) (n : node) : list node :=
  match n with
  | Comment t => if String.eqb t d then decls_of m else [n]
  | Rule s cs => [Rule s (flat_map (walk_comments_node d m) cs)]
  | AtRule a p cs => [AtRule a p (flat_map (walk_comments_node d m) cs)]
  | Decl _ _ => [n]
  end.

Definition walk_comments (d : string) (m : JsMap) (ns : list node) : list node :=
  flat_map (walk_comments_node d m) ns.

(** [Rule(rule) { if (replaceInline) return; rule.walkComments(...) }],
    as a function of the rule's children. *)
Definition rule_listener (P : PluginObj) (cs : list node) : list node :=
  if p_replaceInline P then cs
  else walk_comments (p_generatorDirective P) (stepsMap P) cs.

(** ** The [Declaration] listener: inline replacement *)

(** [parsed.walk(cb)] with the callback of the [Declaration] listener,
    threading [decl.value]: nodes are visited in order, the children of a
    "function" node right after it; a "word" whose text is a key of the map
    overwrites the value ([if (value)]: only a non-empty string). *)
Fixpoint walk_node (m : JsMap) (n : vnode) (v : string) : string :=
  match n with
  | VNode t val sub =>
      let v1 := if String.eqb t "word" then
                  match map_get m val with
                  | Some x => if String.eqb x "" then v else x
                  | None => v
                  end
                else v in
      if String.eqb t "function"
      then fold_left (fun acc c => walk_node m c acc) sub v1
      else v1
  end.

Definition walk_values (m : JsMap) (ns : list vnode) (v : string) : string :=
  fold_left (fun acc c => walk_node m c acc) ns v.

Definition decl_listener (P : PluginObj) (v : string) : string :=
  if p_replaceInline P && includes v (p_prefix P)
  then walk_values (stepsMap P) (valueParser v) v
  else v.

(** ** The postcss traversal

    A node's listener runs first, then its (new) children are visited.
    [fuel] bounds the nesting depth; [process] gives one more than the
    depth of the document, so it never runs out.  A second traversal (the
    one postcss makes over nodes marked dirty) changes nothing: the
    expanded rules contain no directive comment any more, and a generated
    expression contains no key of the map. *)

Fixpoint depth (n : node) : nat :=
  match n with
  | Rule _ cs | AtRule _ _ cs => S (fold_right (fun c acc => Nat.max (depth c) acc) 0 cs)
  | _ => 0
  end.

Definition depth_list (ns : list node) : nat :=
  fold_right (fun c acc => Nat.max (depth c) acc) 0 ns.

Fixpoint visit (P : PluginObj) (fuel : nat) (n : node) : node :=
  match fuel with
  | 0 => n
  | S f =>
      match n with
      | Rule s cs => Rule s (map (visit P f) (rule_listener P cs))
      | AtRule a p cs => AtRule a p (map (visit P f) cs)
      | Decl p v => Decl p (decl_listener P v)
      | Comment t => Comment t
      end
  end.

Definition process (P : PluginObj) (root : list node) : list node :=
  map (visit P (S (depth_list root))) root.

(** [{ unit: "px" }] *)
Definition px_opts : PartialConfig :=
  mkPartial None None None None None None None None None None None None None
    (Some Px) None None.

(** [{ replaceInline: true }] *)
Definition inline_opts : PartialConfig :=
  mkPartial None None None None None None None None None None None None None
    None (Some true) None.

(** ** Derived definitions used to state properties *)

(** The digit count is accepted by [toFixed]. *)
Definition prec_ok (c : Config) : bool := (0 <=? precision c)%Z && (precision c <=? 100)%Z.

(** The local state after the unit conversion, before the loop. *)
Definition conv_locals (c : Config) : Locals :=
  match unit_ c with
  | Rem => mkLocals (toRem c (minScreenWidth c)) (toRem c (maxScreenWidth c))
             (toRem c (minFontSize c)) (toRem c (maxFontSize c)) []
  | Px => init_locals c
  end.

(** The constants [step_entry] computes when [toFixed] does not raise. *)
Definition step_out (c : Config) (l : Locals) (step : Z) : StepOut :=
  let power := (step - baseIndex c)%Z in
  let fsMinSize := mul (l_minFontSize l) (pow (minRatio c) power) in
  let fsMaxSize := mul (l_maxFontSize l) (pow (maxRatio c) power) in
  let slope := div (sub fsMaxSize fsMinSize)
                   (sub (l_maxScreenWidth l) (l_minScreenWidth l)) in
  let yIntersect := fmt (sub fsMinSize (mul slope (l_minScreenWidth l))) (precision c) in
  let slopeVw := fmt (mul slope (lit 100)) (precision c) in
  let u := unit_str (unit_ c) in
  let fsMinFinal := fmt fsMinSize (precision c) +:+ u in
  let fsMaxFinal := fmt fsMaxSize (precision c) +:+ u in
  let key := match suffixType c with
             | Values => "--" +:+ prefix c +:+ suffix_at (suffixValues c) step
             | Numbered => "--" +:+ prefix c +:+ pretty power
             end in
  mkStepOut power fsMinSize fsMaxSize slope yIntersect slopeVw fsMinFinal fsMaxFinal key
    ("clamp(" +:+ fsMinFinal +:+ ",  " +:+ slopeVw +:+ "vw + " +:+
     yIntersect +:+ u +:+ " , " +:+ fsMaxFinal +:+ ")").

(** The [(key, value)] pair that the iteration for [step] sets. *)
Definition entry (c : Config) (l : Locals) (step : Z) : string * string :=
  (so_key (step_out c l step), so_value (step_out c l step)).

(** The map obtained from an empty [Map] by a sequence of [set] calls. *)
Definition build_map (es : list (string * string)) : JsMap :=
  fold_left (fun m kv => map_set m kv.1 kv.2) es [].

(** The suffix check passes. *)
Definition suffixes_ok (c : Config) : Prop :=
  suffixType c = Values -> (minStep c + maxStep c < Z.of_nat (length (suffixValues c)))%Z.

(** The number of steps, [minStep + maxStep + 1]. *)
Definition step_count (c : Config) : nat := Z.to_nat (minStep c + maxStep c + 1).

End Plugin.

(** The number type is implicit in the record constructors and projections. *)
Arguments mkConfig {num} : rename.
Arguments minScreenWidth {num} _.
Arguments maxScreenWidth {num} _.
Arguments minFontSize {num} _.
Arguments maxFontSize {num} _.
Arguments minRatio {num} _.
Arguments maxRatio {num} _.
Arguments minStep {num} _.
Arguments maxStep {num} _.
Arguments precision {num} _.
Arguments prefix {num} _.
Arguments rootFontSize {num} _.
Arguments suffixType {num} _.
Arguments suffixValues {num} _.
Arguments unit_ {num} _.
Arguments replaceInline {num} _.
Arguments generatorDirective {num} _.
Arguments mkPartial {num} : rename.
Arguments o_minScreenWidth {num} _.
Arguments o_maxScreenWidth {num} _.
Arguments o_minFontSize {num} _.
Arguments o_maxFontSize {num} _.
Arguments o_minRatio {num} _.
Arguments o_maxRatio {num} _.
Arguments o_minStep {num} _.
Arguments o_maxStep {num} _.
Arguments o_precision {num} _.
Arguments o_prefix {num} _.
Arguments o_rootFontSize {num} _.
Arguments o_suffixType {num} _.
Arguments o_suffixValues {num} _.
Arguments o_unit {num} _.
Arguments o_replaceInline {num} _.
Arguments o_generatorDirective {num} _.
Arguments mkLocals {num} : rename.
Arguments l_minScreenWidth {num} _.
Arguments l_maxScreenWidth {num} _.
Arguments l_minFontSize {num} _.
Arguments l_maxFontSize {num} _.
Arguments l_stepsMap {num} _.
Arguments mkStepOut {num} : rename.
Arguments so_power {num} _.
Arguments so_fsMinSize {num} _.
Arguments so_fsMaxSize {num} _.
Arguments so_slope {num} _.
Arguments so_yIntersect {num} _.
Arguments so_slopeVw {num} _.
Arguments so_fsMinFinal {num} _.
Arguments so_fsMaxFinal {num} _.
Arguments so_key {num} _.
Arguments so_value {num} _.

End Src.
Import Src.

(** ** Statements in the words of the specification *)

(** The expression template as the specification writes it:
    [clamp({fsMinFinal}, {slopeVw}vw + {yIntersect}, {fsMaxFinal})]. *)
Definition spec_clamp (fsMinFinal slopeVw yIntersect fsMaxFinal : string) : string :=
  "clamp(" +:+ fsMinFinal +:+ ", " +:+ slopeVw +:+ "vw + " +:+ yIntersect +:+ ", " +:+
  fsMaxFinal +:+ ")".

(** Directive expansion as a single pass: a comment whose text is the
    directive is replaced by the declarations when it lies inside a rule
    ([inRule]); nothing else changes. *)
Fixpoint expand_node (d : string) (m : JsMap) (inRule : bool) (n : node) : list node :=
  match n with
  | Comment t => if inRule && String.eqb t d then decls_of m else [n]
  | Rule s cs => [Rule s (flat_map (expand_node d m true) cs)]
  | AtRule a p cs => [AtRule a p (flat_map (expand_node d m inRule) cs)]
  | Decl _ _ => [n]
  end.

Definition expand (d : string) (m : JsMap) (ns : list node) : list node :=
  flat_map (expand_node d m false) ns.

(** Some comment of the document, at any depth, has the text [d]. *)
Fixpoint has_directive_node (d : string) (n : node) : bool :=
  match n with
  | Comment t => String.eqb t d
  | Rule _ cs | AtRule _ _ cs => existsb (has_directive_node d) cs
  | Decl _ _ => false
  end.

Definition has_directive (d : string) (ns : list node) : bool :=
  existsb (has_directive_node d) ns.

(** The texts of the "word" tokens in walk order. *)
Fixpoint words_node (n : vnode) : list string :=
  match n with
  | VNode t val sub =>
      (if String.eqb t "word" then [val] else []) ++
      (if String.eqb t "function" then flat_map words_node sub else [])
  end.

Definition words (ns : list vnode) : list string := flat_map words_node ns.

(** The expressions of the words that are keys of the map, in order. *)
Definition found (m : JsMap) (ws : list string) : list string :=
  flat_map (fun w => match map_get m w with Some x => [x] | None => [] end) ws.

(** The last element of a list, or [v] for an empty list. *)
Definition lastv (l : list string) (v : string) : string :=
  match last l with Some x => x | None => v end.

(** ** Derived definitions for further properties of the code *)

(** The value of the last pair with key [k] in a list of pairs, if any. *)
Definition last_value (k : string) (es : list (string * string)) : option string :=
  fold_left (fun acc kv => if String.eqb kv.1 k then Some kv.2 else acc) es None.

(** A property given by [a] and then by [b]: the one of [b] when present. *)
Definition merge_opt {A} (a b : option A) : option A :=
  match b with Some v => Some v | None => a end.

(** The options [a] and then [b], property by property. *)
Definition assign_opts {num} (a b : PartialConfig num) : PartialConfig num :=
  mkPartial (merge_opt (o_minScreenWidth a) (o_minScreenWidth b))
    (merge_opt (o_maxScreenWidth a) (o_maxScreenWidth b))
    (merge_opt (o_minFontSize a) (o_minFontSize b))
    (merge_opt (o_maxFontSize a) (o_maxFontSize b))
    (merge_opt (o_minRatio a) (o_minRatio b))
    (merge_opt (o_maxRatio a) (o_maxRatio b))
    (merge_opt (o_minStep a) (o_minStep b))
    (merge_opt (o_maxStep a) (o_maxStep b))
    (merge_opt (o_precision a) (o_precision b))
    (merge_opt (o_prefix a) (o_prefix b))
    (merge_opt (o_rootFontSize a) (o_rootFontSize b))
    (merge_opt (o_suffixType a) (o_suffixType b))
    (merge_opt (o_suffixValues a) (o_suffixValues b))
    (merge_opt (o_unit a) (o_unit b))
    (merge_opt (o_replaceInline a) (o_replaceInline b))
    (merge_opt (o_generatorDirective a) (o_generatorDirective b)).

(** The document with every declaration value passed through [f] and
    nothing else changed. *)
Fixpoint map_values_node (f : string -> string) (n : node) : node :=
  match n with
  | Rule s cs => Rule s (map (map_values_node f) cs)
  | AtRule a p cs => AtRule a p (map (map_values_node f) cs)
  | Decl p v => Decl p (f v)
  | Comment t => Comment t
  end.

(** ** A rational instance

    Exact rational arithmetic stands in for the IEEE doubles when the code
    is evaluated on concrete configurations; [Q_toFixed] follows
    [Number.prototype.toFixed]: round half up to [f] digits, a sign for a
    negative argument. *)

Fixpoint zeros (k : nat) : string :=
  match k with 0 => "" | S k' => String (Ascii.ascii_of_nat 48) (zeros k') end.

Definition Q_toFixed (x : Q) (f : Z) : string :=
  let a := Qabs x in
  let n := ((2 * Qnum a * 10 ^ f + Zpos (Qden a)) / (2 * Zpos (Qden a)))%Z in
  let ds := pretty n in
  let k := Z.to_nat f in
  let ds' := zeros (S k - String.length ds) +:+ ds in
  let len := String.length ds' in
  let digits := if Nat.eqb k 0 then ds'
                else String.substring 0 (len - k) ds' +:+ "." +:+
                     String.substring (len - k) k ds' in
  (if Qle_bool 0 x then "" else "-") +:+ digits.

Module QInst.
Definition qlit (q : Q) : Q := q.
Definition defaults : Config Q := defaultConfig Q qlit.
Definition gen : Config Q -> res JsMap := generate Q qlit Qminus Qmult Qdiv Qpower Q_toFixed.
Definition plug : PartialConfig Q -> Config Q -> res PluginObj * Config Q :=
  plugin Q qlit Qminus Qmult Qdiv Qpower Q_toFixed.
Definition px : PartialConfig Q := px_opts Q.
Definition inline : PartialConfig Q := inline_opts Q.
(** [{ precision: 101 }] over the defaults. *)
Definition prec101 : Config Q :=
  object_assign Q defaults
    (mkPartial None None None None None None None None (Some 101%Z) None None None None
       None None None).
(** [{ suffixType: "values" }] with a repeated suffix, over the defaults. *)
Definition dup : Config Q :=
  object_assign Q defaults
    (mkPartial None None None None None None None None None None None (Some Values)
       (Some ["xs"; "sm"; "xs"; "md"; "lg"; "xl"; "xxl"; "xxxl"]) None None None).
(** [{ suffixType: "values", suffixValues: ["xs", "sm"] }] over the defaults. *)
Definition short : Config Q :=
  object_assign Q defaults
    (mkPartial None None None None None None None None None None None (Some Values)
       (Some ["xs"; "sm"]) None None None).
(** [{ minStep: 5, maxStep: 2 }] over the defaults. *)
Definition few : Config Q :=
  object_assign Q defaults
    (mkPartial None None None None None None (Some 5%Z) (Some 2%Z) None None None None
       None None None None).
(** [{ minStep: 0, maxStep: -1, suffixType: "values", suffixValues: [] }]
    over the defaults: a loop with no iteration. *)
Definition nosteps : Config Q :=
  object_assign Q defaults
    (mkPartial None None None None None None (Some 0%Z) (Some (-1)%Z) None None None
       (Some Values) (Some []) None None None).
(** A tokenization of [var(--font-size-0)]: the function [var] around the
    word [--font-size-0]. *)
Definition vp (v : string) : list vnode :=
  if String.eqb v "var(--font-size-0)"
  then [VNode "function" "var" [VNode "word" "--font-size-0" []]]
  else [].
End QInst.

(** * Proofs *)

Section Proofs.

Variable num : Type.
Variable lit : Q -> num.
Variables sub mul div : num -> num -> num.
Variable pow : num -> Z -> num.
Variable fmt : num -> Z -> string.

Local Abbreviation Config := (Config num).
Local Abbreviation Locals := (Locals num).
Local Abbreviation step_entry := (step_entry num lit sub mul div pow fmt).
Local Abbreviation step_out := (step_out num lit sub mul div pow fmt).
Local Abbreviation entry := (entry num lit sub mul div pow fmt).
Local Abbreviation for_steps := (for_steps num lit sub mul div pow fmt).
Local Abbreviation run_body := (run_body num lit sub mul div pow fmt).
Local Abbreviation generate := (generate num lit sub mul div pow fmt).
Local Abbreviation plugin := (plugin num lit sub mul div pow fmt).
Local Abbreviation body := (body num lit sub mul div pow fmt).
Local Abbreviation convert_units := (convert_units num div).
Local Abbreviation conv_locals := (conv_locals num div).
Local Abbreviation check_suffixes := (check_suffixes num).
Local Abbreviation init_locals := (init_locals num).
Local Abbreviation prec_ok := (prec_ok num).
Local Abbreviation baseIndex := (baseIndex num).
Local Abbreviation steps := (steps num).
Local Abbreviation step_count := (step_count num).
Local Abbreviation suffixes_ok := (suffixes_ok num).
Local Abbreviation suffix_error_message := (suffix_error_message num).
Local Abbreviation defaultConfig := (defaultConfig num lit).
Local Abbreviation px_opts := (px_opts num).

Variable valueParser : string -> list vnode.
Local Abbreviation decl_listener := (decl_listener valueParser).
Local Abbreviation visit := (visit valueParser).
Local Abbreviation process := (process valueParser).

Lemma step_entry_eq (c : Config) (s : Z) (l : Locals) :
  step_entry c s l = (if prec_ok c then Ok (step_out c l s) else Throw RangeError, l).
Proof.
  unfold step_entry, Src.step_entry, bindM, getM, toFixed, retM, throwM, prec_ok.
  destruct (_ && _); reflexivity.
Qed.

Lemma step_out_locals (c : Config) (s : Z) a b d e m m' :
  step_out c (mkLocals a b d e m) s = step_out c (mkLocals a b d e m') s.
Proof. reflexivity. Qed.

(** With [toFixed] accepting the precision, the loop performs
    [stepsMap.set] with the entry of each step, in order. *)
Lemma for_steps_ok (c : Config) (ss : list Z) (l : Locals) :
  prec_ok c = true ->
  for_steps c ss l =
    (Ok tt, mkLocals (l_minScreenWidth l) (l_maxScreenWidth l) (l_minFontSize l)
              (l_maxFontSize l)
              (fold_left (fun m kv => map_set m kv.1 kv.2) (map (entry c l) ss)
                 (l_stepsMap l))).
Proof.
  intros Hp. revert l. induction ss as [|s ss IH]; intros [a b d e m].
  - reflexivity.
  - cbn [Src.for_steps]. unfold loop_body, bindM.
    rewrite step_entry_eq, Hp. cbn -[Src.for_steps].
    rewrite IH. reflexivity.
Qed.

Lemma for_steps_err (c : Config) (s : Z) (ss : list Z) (l : Locals) :
  prec_ok c = false -> fst (for_steps c (s :: ss) l) = Throw RangeError.
Proof.
  intros Hp. cbn [Src.for_steps]. unfold loop_body, bindM.
  rewrite step_entry_eq, Hp. reflexivity.
Qed.

Lemma convert_units_eq (c : Config) :
  convert_units c (init_locals c) = (Ok tt, conv_locals c).
Proof. unfold Src.convert_units, conv_locals. destruct (unit_ c); reflexivity. Qed.

Lemma run_body_eq (c : Config) :
  run_body c =
    if is_values (suffixType c)
       && (Z.of_nat (length (suffixValues c)) <=? maxStep c + minStep c)%Z
    then (Throw (ConfigurationError (suffix_error_message c)), init_locals c)
    else for_steps c (steps c) (conv_locals c).
Proof.
  unfold Src.run_body, Src.body, check_suffixes, bindM at 1.
  destruct (_ && _); [reflexivity|].
  cbn [retM]. unfold bindM. rewrite convert_units_eq. reflexivity.
Qed.

Lemma steps_length (c : Config) : length (steps c) = step_count c.
Proof. unfold Src.steps, Src.step_count. rewrite length_map, length_seq. f_equal. lia. Qed.

Lemma generate_eq (c : Config) :
  generate c =
    if is_values (suffixType c)
       && (Z.of_nat (length (suffixValues c)) <=? maxStep c + minStep c)%Z
    then Throw (ConfigurationError (suffix_error_message c))
    else if prec_ok c then Ok (build_map (map (entry c (conv_locals c)) (steps c)))
    else match steps c with [] => Ok [] | _ => Throw RangeError end.
Proof.
  unfold Src.generate. rewrite run_body_eq.
  destruct (_ && _); [reflexivity|].
  destruct (prec_ok c) eqn:Hp.
  - rewrite for_steps_ok by done. unfold build_map.
    unfold conv_locals, Src.conv_locals. destruct (unit_ c); reflexivity.
  - destruct (steps c) as [|s ss] eqn:Hs.
    { unfold Src.conv_locals. destruct (unit_ c); reflexivity. }
    pose proof (for_steps_err c s ss (conv_locals c) Hp) as H.
    destruct (for_steps c (s :: ss) (conv_locals c)) as [r l']. simpl in H. by subst.
Qed.

(** ** The [Map] built by the loop *)

Lemma map_set_fresh (m : JsMap) (k v : string) :
  k ∉ map fst m -> map_set m k v = m ++ [(k, v)].
Proof.
  induction m as [|[k' v'] m IH]; intros Hk; [reflexivity|].
  simpl in *. destruct (String.eqb_spec k k') as [->|Hne].
  - exfalso. apply Hk. left.
  - rewrite IH; [reflexivity|]. intros Hin. apply Hk. by right.
Qed.

Lemma fold_map_set_fresh (es m0 : JsMap) :
  NoDup (map fst (m0 ++ es)) ->
  fold_left (fun m kv => map_set m kv.1 kv.2) es m0 = m0 ++ es.
Proof.
  revert m0. induction es as [|[k v] es IH]; intros m0 Hnd; simpl.
  - by rewrite app_nil_r.
  - rewrite map_set_fresh.
    + rewrite IH; [by rewrite <- app_assoc|]. by rewrite <- app_assoc.
    + rewrite map_app in Hnd. simpl in Hnd.
      apply NoDup_app in Hnd as (_ & Hdisj & _).
      intros Hin. apply (Hdisj k Hin). apply list_elem_of_here.
Qed.

(** Distinct keys: the map keeps every [set], in order. *)
Lemma build_map_nodup (es : JsMap) : NoDup (map fst es) -> build_map es = es.
Proof. intros H. unfold build_map. by rewrite fold_map_set_fresh. Qed.

Lemma map_set_in (m : JsMap) (k v : string) kv :
  In kv (map_set m k v) -> In kv m \/ kv = (k, v).
Proof.
  induction m as [|[k' v'] m IH]; simpl.
  - intros [<-|[]]. by right.
  - destruct (String.eqb k k').
    + intros [<-|H]; [by right|by left; right].
    + intros [<-|H]; [by left; left|]. destruct (IH H); [by left; right|by right].
Qed.

Lemma build_map_in (es : JsMap) kv : In kv (build_map es) -> In kv es.
Proof.
  unfold build_map. assert (forall m0, In kv (fold_left (fun m kv => map_set m kv.1 kv.2) es m0) ->
                                      In kv m0 \/ In kv es) as H.
  { induction es as [|[k v] es IH]; simpl; intros m0 Hin; [by left|].
    destruct (IH _ Hin) as [H|H]; [|by right; right].
    destruct (map_set_in _ _ _ _ H) as [H'|H']; [by left|by right; left]. }
  intros Hin. by destruct (H [] Hin) as [[]|].
Qed.

Lemma map_get_in (m : JsMap) (k x : string) : map_get m k = Some x -> In (k, x) m.
Proof.
  induction m as [|[k' v'] m IH]; simpl; [done|].
  destruct (String.eqb_spec k k') as [->|_]; [intros [= ->]; by left|].
  intros H. right. by apply IH.
Qed.

(** ** Keys *)

Lemma string_app_inj_l (s a b : string) : s +:+ a = s +:+ b -> a = b.
Proof. induction s as [|ch s IH]; simpl; [done|]. intros [= H]. by apply IH. Qed.

Lemma NoDup_map_on {A B} (f : A -> B) (l : list A) :
  (forall x y, In x l -> In y l -> f x = f y -> x = y) -> NoDup l -> NoDup (map f l).
Proof.
  intros Hinj Hnd. induction Hnd as [|x l Hx Hnd IH]; simpl; constructor.
  - rewrite list_elem_of_In. intros Hin. apply in_map_iff in Hin as [y [Hy Hyl]].
    assert (y = x) as -> by (apply Hinj; [by right|by left|done]).
    apply Hx. by apply list_elem_of_In.
  - apply IH. intros y z Hy Hz. apply Hinj; by right.
Qed.

Lemma steps_NoDup (c : Config) : NoDup (steps c).
Proof.
  unfold Src.steps. apply NoDup_map_on; [intros x y _ _; lia|]. apply NoDup_seq.
Qed.

Lemma in_steps (c : Config) (s : Z) :
  In s (steps c) <-> (0 <= s /\ s <= maxStep c + minStep c)%Z.
Proof.
  unfold Src.steps. rewrite in_map_iff. split.
  - intros [i [<- Hi]]. apply in_seq in Hi. lia.
  - intros Hs. exists (Z.to_nat s). split; [lia|]. apply in_seq. lia.
Qed.

Lemma entry_key (c : Config) (l : Locals) (s : Z) :
  (entry c l s).1 = match suffixType c with
                    | Values => "--" +:+ prefix c +:+ suffix_at (suffixValues c) s
                    | Numbered => "--" +:+ prefix c +:+ pretty (s - baseIndex c)%Z
                    end.
Proof. reflexivity. Qed.

Lemma suffix_at_take (xs : list string) (n : nat) :
  n <= length xs ->
  map (fun i => suffix_at xs (Z.of_nat i)) (seq 0 n) = take n xs.
Proof.
  intros Hn.
  assert (forall i, suffix_at xs (Z.of_nat i) =
                    match xs !! i with Some s => s | None => "undefined" end) as Hat.
  { intros i. unfold suffix_at. rewrite Nat2Z.id.
    by rewrite (proj2 (Z.ltb_ge _ _)) by lia. }
  rewrite (List.map_ext _ _ Hat). clear Hat. revert n Hn.
  induction xs as [|x xs IH]; intros [|n] Hn; simpl in *; try done; [lia|].
  f_equal. rewrite <- seq_shift, map_map. apply IH. lia.
Qed.

Lemma steps_seq (c : Config) : steps c = map Z.of_nat (seq 0 (step_count c)).
Proof.
  unfold Src.steps, Src.step_count. do 3 f_equal. lia.
Qed.

Lemma check_passes (c : Config) :
  suffixes_ok c ->
  is_values (suffixType c)
  && (Z.of_nat (length (suffixValues c)) <=? maxStep c + minStep c)%Z = false.
Proof.
  unfold suffixes_ok, Src.suffixes_ok. intros H.
  destruct (suffixType c); [reflexivity|]. simpl.
  specialize (H eq_refl). apply Z.leb_gt. lia.
Qed.

Lemma keys_numbered (c : Config) (l : Locals) :
  suffixType c = Numbered ->
  map fst (map (entry c l) (steps c)) =
  map (fun s => "--" +:+ prefix c +:+ pretty (s - baseIndex c)%Z) (steps c).
Proof.
  intros Ht. rewrite map_map. apply List.map_ext. intros s.
  rewrite entry_key, Ht. reflexivity.
Qed.

Lemma keys_values (c : Config) (l : Locals) :
  suffixType c = Values -> step_count c <= length (suffixValues c) ->
  map fst (map (entry c l) (steps c)) =
  map (fun x => "--" +:+ prefix c +:+ x) (take (step_count c) (suffixValues c)).
Proof.
  intros Ht Hn. rewrite map_map, steps_seq, map_map, <- suffix_at_take by done.
  rewrite map_map. apply List.map_ext. intros i. rewrite entry_key, Ht. reflexivity.
Qed.

Lemma keys_NoDup (c : Config) (l : Locals) :
  suffixes_ok c ->
  (suffixType c = Values -> NoDup (take (step_count c) (suffixValues c))) ->
  NoDup (map fst (map (entry c l) (steps c))).
Proof.
  intros Hok Hnd. destruct (suffixType c) eqn:Ht.
  - rewrite keys_numbered by done. apply NoDup_map_on; [|apply steps_NoDup].
    intros x y _ _ Hxy. apply string_app_inj_l, string_app_inj_l in Hxy.
    apply (inj pretty) in Hxy. lia.
  - assert (step_count c <= length (suffixValues c)) as Hn.
    { unfold suffixes_ok, Src.suffixes_ok in Hok. specialize (Hok Ht).
      unfold Src.step_count. lia. }
    rewrite keys_values by done. apply NoDup_map_on; [|by apply Hnd].
    intros x y _ _ Hxy. by apply string_app_inj_l, string_app_inj_l in Hxy.
Qed.

Lemma entries_lookup (c : Config) (l : Locals) (i : nat) :
  i < step_count c ->
  map (entry c l) (steps c) !! i = Some (entry c l (Z.of_nat i)).
Proof.
  intros Hi. rewrite steps_seq, map_map.
  assert (forall A (f : nat -> A) k n j, j < n -> map f (seq k n) !! j = Some (f (k + j)))
    as Hseq.
  { intros A f k n. revert k. induction n as [|n IH]; intros k [|j] Hj; simpl; try lia.
    - by rewrite Nat.add_0_r.
    - rewrite IH by lia. do 2 f_equal. lia. }
  by rewrite Hseq.
Qed.

Lemma values_bound (c : Config) :
  suffixes_ok c -> suffixType c = Values -> step_count c <= length (suffixValues c).
Proof.
  unfold suffixes_ok, Src.suffixes_ok, Src.step_count. intros H Ht.
  specialize (H Ht). lia.
Qed.

(** Every entry of a generated map is the entry of one step. *)
Lemma generate_ok_entries (c : Config) (m : JsMap) :
  generate c = Ok m ->
  forall kv, In kv m -> exists s, In s (steps c) /\ kv = entry c (conv_locals c) s.
Proof.
  rewrite generate_eq. destruct (_ && _); [done|].
  destruct (prec_ok c).
  - intros [= <-] kv Hin. apply build_map_in, in_map_iff in Hin as [s [<- Hs]]. by exists s.
  - destruct (steps c); [intros [= <-] kv []|done].
Qed.

Lemma for_steps_no_config_error (c : Config) (ss : list Z) (l : Locals) (msg : string) :
  fst (for_steps c ss l) <> Throw (ConfigurationError msg).
Proof.
  destruct (prec_ok c) eqn:Hp.
  - by rewrite for_steps_ok.
  - destruct ss as [|s ss]; [done|]. by rewrite for_steps_err.
Qed.

Lemma string_app_assoc (a b d : string) : (a +:+ b) +:+ d = a +:+ (b +:+ d).
Proof. induction a as [|ch a IH]; [done|]. exact (f_equal (String ch) IH). Qed.

(** ** Claims about the scale generator *)

(** C2 (amended). For a configuration that passes the suffix check and
    whose [precision] is accepted by [toFixed] ([0..100]), with [minStep]
    and [maxStep] non-negative, the generated map has exactly
    [minStep + maxStep + 1] entries, provided the keys are distinct: always
    for [suffixType = "numbered"], and for [suffixType = "values"] when the
    first [minStep + maxStep + 1] suffixes are pairwise distinct. *)
Theorem generate_entry_count (c : Config) :
  (0 <= minStep c)%Z -> (0 <= maxStep c)%Z ->
  suffixes_ok c -> prec_ok c = true ->
  (suffixType c = Values -> NoDup (take (step_count c) (suffixValues c))) ->
  exists m, generate c = Ok m /\ Z.of_nat (length m) = (minStep c + maxStep c + 1)%Z.
Proof.
  intros Hmin Hmax Hok Hp Hnd.
  exists (map (entry c (conv_locals c)) (steps c)).
  rewrite generate_eq, (check_passes c Hok), Hp, build_map_nodup by (by apply keys_NoDup).
  split; [done|]. rewrite length_map, steps_length. unfold Src.step_count. lia.
Qed.

(** C4 (amended). Under the same conditions, the map lists the steps
    [0 .. minStep + maxStep] in ascending order: its [i]-th entry is the
    key and expression computed by iteration [i]; its keys are distinct; for
    "numbered" the key of step [s] is [--{prefix}{s - baseIndex}], and for
    "values" the keys are [--{prefix}{x}] for the first
    [minStep + maxStep + 1] suffixes [x], in their order. *)
Theorem generate_keys_in_step_order (c : Config) :
  suffixes_ok c -> prec_ok c = true ->
  (suffixType c = Values -> NoDup (take (step_count c) (suffixValues c))) ->
  exists es, generate c = Ok es /\
    (forall i, i < step_count c ->
       exists o, es !! i = Some (so_key o, so_value o) /\
                 step_entry c (Z.of_nat i) (conv_locals c) = (Ok o, conv_locals c)) /\
    length es = step_count c /\
    NoDup (map fst es) /\
    (suffixType c = Numbered ->
       map fst es = map (fun s => "--" +:+ prefix c +:+ pretty (s - baseIndex c)%Z) (steps c)) /\
    (suffixType c = Values ->
       map fst es = map (fun x => "--" +:+ prefix c +:+ x)
                      (take (step_count c) (suffixValues c))).
Proof.
  intros Hok Hp Hnd.
  assert (NoDup (map fst (map (entry c (conv_locals c)) (steps c)))) as Hk
    by (by apply keys_NoDup).
  exists (map (entry c (conv_locals c)) (steps c)).
  rewrite generate_eq, (check_passes c Hok), Hp, build_map_nodup by done.
  split; [done|]. split; [|split; [|split; [done|split]]].
  - intros i Hi. exists (step_out c (conv_locals c) (Z.of_nat i)). split.
    + by rewrite entries_lookup.
    + by rewrite step_entry_eq, Hp.
  - by rewrite length_map, steps_length.
  - intros Ht. by apply keys_numbered.
  - intros Ht. by apply keys_values, values_bound.
Qed.

(** C3. [generate] raises the configuration error exactly when
    [suffixType = "values"] and [suffixValues.length <= minStep + maxStep];
    it is raised by the first statement, so the local state is the initial
    one (no unit conversion, an empty map), and its message contains the
    required count [minStep + maxStep + 1], the number of suffixes and the
    suffix list. *)
Theorem generate_config_error (c : Config) :
  ((exists msg, generate c = Throw (ConfigurationError msg)) <->
     suffixType c = Values /\
     (Z.of_nat (length (suffixValues c)) <= minStep c + maxStep c)%Z) /\
  (forall msg, fst (run_body c) = Throw (ConfigurationError msg) ->
     snd (run_body c) = init_locals c /\
     (exists a b, msg = a +:+ pretty (minStep c + maxStep c + 1)%Z +:+ b) /\
     (exists a b, msg = a +:+ pretty (length (suffixValues c)) +:+ b) /\
     (exists a b, msg = a +:+ js_join (suffixValues c) +:+ b)).
Proof.
  split.
  - rewrite generate_eq. split.
    + intros [msg Hmsg]. destruct (is_values (suffixType c)) eqn:Ht.
      * destruct (suffixType c); [done|]. simpl in Hmsg.
        destruct (_ <=? _)%Z eqn:Hle; [|destruct (prec_ok c); [done|]];
          [apply Z.leb_le in Hle; split; [done|lia]|].
        by destruct (steps c).
      * simpl in Hmsg. destruct (prec_ok c); [done|]. by destruct (steps c).
    + intros [Ht Hle]. rewrite Ht. simpl.
      rewrite (proj2 (Z.leb_le _ _)) by lia. by eexists.
  - intros msg. rewrite run_body_eq. destruct (_ && _).
    + simpl. intros [= <-]. split; [done|]. unfold suffix_error_message, Src.suffix_error_message.
      split; [|split].
      * eexists ("Insufficient suffixes passed." +:+ nl +:+ "Number of steps: " +:+
                 pretty (minStep c) +:+ "(minstep) + " +:+ pretty (maxStep c) +:+
                 "(maxStep) + 1(baseStep) = "), _.
        rewrite !string_app_assoc. reflexivity.
      * eexists ("Insufficient suffixes passed." +:+ nl +:+ "Number of steps: " +:+
                 pretty (minStep c) +:+ "(minstep) + " +:+ pretty (maxStep c) +:+
                 "(maxStep) + 1(baseStep) = " +:+ pretty (minStep c + maxStep c + 1)%Z +:+
                 nl +:+ "Number of suffixes: "), _.
        rewrite !string_app_assoc. reflexivity.
      * eexists ("Insufficient suffixes passed." +:+ nl +:+ "Number of steps: " +:+
                 pretty (minStep c) +:+ "(minstep) + " +:+ pretty (maxStep c) +:+
                 "(maxStep) + 1(baseStep) = " +:+ pretty (minStep c + maxStep c + 1)%Z +:+
                 nl +:+ "Number of suffixes: " +:+ pretty (length (suffixValues c)) +:+
                 nl +:+ "Current suffix list: "), _.
        rewrite !string_app_assoc. reflexivity.
    + intros H. by apply for_steps_no_config_error in H.
Qed.

(** C10. When [maxStep <= minStep], [baseIndex] is negative and every
    step of the loop has a power of at least 1 (never 0); with
    [suffixType = "numbered"] every key of the generated map ends in a
    positive integer. *)
Theorem powers_positive (c : Config) :
  (maxStep c <= minStep c)%Z ->
  (baseIndex c < 0)%Z /\
  (forall s, In s (steps c) ->
     (minStep c - maxStep c + 1 <= s - baseIndex c)%Z /\ (1 <= s - baseIndex c)%Z) /\
  (forall m, generate c = Ok m -> suffixType c = Numbered ->
     forall k x, In (k, x) m -> exists p : positive, k = "--" +:+ prefix c +:+ pretty (Zpos p)).
Proof.
  intros Hle. unfold baseIndex, Src.baseIndex. split; [lia|]. split.
  - intros s Hs. apply in_steps in Hs. lia.
  - intros m Hm Ht k x Hin. destruct (generate_ok_entries c m Hm _ Hin) as [s [Hs Heq]].
    apply in_steps in Hs.
    assert (k = (entry c (conv_locals c) s).1) as -> by (by rewrite <- Heq).
    rewrite entry_key, Ht. unfold Src.baseIndex.
    destruct (s - (maxStep c - minStep c - 1))%Z eqn:E; try lia. by exists p.
Qed.

(** C1 (amended). For a configuration that passes the suffix check and
    whose [precision] is in [0..100], iteration [s] of the loop (for each
    [s] in [0 .. minStep + maxStep]) sets, as the [s]-th [set] call of the
    map, the expression built from the unit-converted inputs by the
    template [clamp({fsMinFinal},  {slopeVw}vw + {yIntersect} , {fsMaxFinal})]:
    two spaces after the first comma and a space before the second one. *)
Theorem generate_step_expression (c : Config) (s : Z) :
  suffixes_ok c -> prec_ok c = true -> (0 <= s <= minStep c + maxStep c)%Z ->
  let conv x := match unit_ c with Rem => div x (rootFontSize c) | Px => x end in
  let u := unit_str (unit_ c) in
  let p := precision c in
  let power := (s - (maxStep c - minStep c - 1))%Z in
  let fsMin := mul (conv (minFontSize c)) (pow (minRatio c) power) in
  let fsMax := mul (conv (maxFontSize c)) (pow (maxRatio c) power) in
  let slope := div (sub fsMax fsMin) (sub (conv (maxScreenWidth c)) (conv (minScreenWidth c))) in
  let yIntersect := fmt (sub fsMin (mul slope (conv (minScreenWidth c)))) p +:+ u in
  let slopeVw := fmt (mul slope (lit 100)) p in
  let fsMinFinal := fmt fsMin p +:+ u in
  let fsMaxFinal := fmt fsMax p +:+ u in
  exists es k, generate c = Ok (build_map es) /\ length es = step_count c /\
    es !! Z.to_nat s = Some (k, "clamp(" +:+ fsMinFinal +:+ ",  " +:+ slopeVw +:+ "vw + " +:+
                                yIntersect +:+ " , " +:+ fsMaxFinal +:+ ")").
Proof.
  intros Hok Hp Hs. cbv zeta.
  exists (map (entry c (conv_locals c)) (steps c)), (entry c (conv_locals c) s).1.
  rewrite generate_eq, (check_passes c Hok), Hp.
  split; [done|]. split; [by rewrite length_map, steps_length|].
  rewrite entries_lookup by (unfold Src.step_count; lia).
  rewrite Z2Nat.id by lia. f_equal.
  unfold entry, Src.entry, Src.step_out, conv_locals, Src.conv_locals,
    Src.baseIndex.
  destruct (unit_ c); cbn [fst snd so_value];
    rewrite ?string_app_assoc; reflexivity.
Qed.

Section BaseStep.

(** IEEE-754 facts about the operations used at the base step:
    [Math.pow(x, 0)] is [1] for every [x], and [x * 1] is [x]. *)
Hypothesis pow_zero : forall x, pow x 0%Z = lit 1.
Hypothesis mul_one : forall x, mul x (lit 1) = x.

(** C9 (amended). When the step with power 0 exists
    ([0 <= maxStep - minStep - 1 <= minStep + maxStep]) and [precision] is
    in [0..100], the loop reaches that step, and there [fsMinFinal] is
    the (unit-converted) [minFontSize] printed with [precision] digits and
    the unit, and [fsMaxFinal] likewise for [maxFontSize]. *)
Theorem base_step_sizes (c : Config) :
  prec_ok c = true ->
  (0 <= maxStep c - minStep c - 1 <= minStep c + maxStep c)%Z ->
  let conv x := match unit_ c with Rem => div x (rootFontSize c) | Px => x end in
  In (baseIndex c) (steps c) /\
  exists o, step_entry c (baseIndex c) (conv_locals c) = (Ok o, conv_locals c) /\
    so_power o = 0%Z /\
    so_fsMinFinal o = fmt (conv (minFontSize c)) (precision c) +:+ unit_str (unit_ c) /\
    so_fsMaxFinal o = fmt (conv (maxFontSize c)) (precision c) +:+ unit_str (unit_ c).
Proof.
  intros Hp Hb conv. split.
  - apply in_steps. unfold Src.baseIndex. lia.
  - exists (step_out c (conv_locals c) (baseIndex c)). rewrite step_entry_eq, Hp.
    split; [done|].
    unfold Src.step_out, conv, conv_locals, Src.conv_locals.
    cbn [so_power so_fsMinFinal so_fsMaxFinal].
    rewrite Z.sub_diag, !pow_zero, !mul_one.
    destruct (unit_ c); repeat split.
Qed.

End BaseStep.

(** ** The substitution engine *)

Lemma node_ind' (Pn : node -> Prop) :
  (forall s cs, Forall Pn cs -> Pn (Rule s cs)) ->
  (forall a p cs, Forall Pn cs -> Pn (AtRule a p cs)) ->
  (forall p v, Pn (Decl p v)) ->
  (forall t, Pn (Comment t)) ->
  forall n, Pn n.
Proof.
  intros HR HA HD HC. fix IH 1. intros [s cs|a p cs|p v|t].
  - apply HR. revert cs. fix IHl 1. intros [|c cs]; constructor; [apply IH|apply IHl].
  - apply HA. revert cs. fix IHl 1. intros [|c cs]; constructor; [apply IH|apply IHl].
  - apply HD.
  - apply HC.
Qed.

Lemma decls_clean (d : string) (m : JsMap) : has_directive d (decls_of m) = false.
Proof. induction m as [|[k v] m IH]; [done|]. exact IH. Qed.

(** After [walkComments], no directive comment is left. *)
Lemma walk_comments_clean (d : string) (m : JsMap) (n : node) :
  has_directive d (walk_comments_node d m n) = false.
Proof.
  induction n as [s cs IH|a p cs IH|p v|t] using node_ind'; simpl.
  - rewrite orb_false_r. unfold has_directive in *. induction IH as [|c cs Hc _ IHcs]; [done|].
    simpl. rewrite existsb_app, Hc. exact IHcs.
  - rewrite orb_false_r. induction IH as [|c cs Hc _ IHcs]; [done|].
    simpl. unfold has_directive in Hc. rewrite existsb_app, Hc. exact IHcs.
  - done.
  - destruct (String.eqb_spec t d); [apply decls_clean|]. simpl.
    rewrite orb_false_r. by apply String.eqb_neq.
Qed.

Lemma walk_comments_clean_list (d : string) (m : JsMap) (ns : list node) :
  has_directive d (walk_comments d m ns) = false.
Proof.
  induction ns as [|n ns IH]; [done|]. unfold walk_comments, has_directive in *. simpl.
  rewrite existsb_app. pose proof (walk_comments_clean d m n) as H.
  unfold has_directive in H. by rewrite H, IH.
Qed.

(** On a document without directive comments, [walkComments] does nothing. *)
Lemma walk_comments_id (d : string) (m : JsMap) (n : node) :
  has_directive_node d n = false -> walk_comments_node d m n = [n].
Proof.
  induction n as [s cs IH|a p cs IH|p v|t] using node_ind'; simpl; intros Hn.
  - do 2 f_equal. induction IH as [|c cs Hc _ IHcs]; [done|].
    simpl in *. apply orb_false_iff in Hn as [H1 H2]. rewrite Hc, IHcs; done.
  - do 2 f_equal. induction IH as [|c cs Hc _ IHcs]; [done|].
    simpl in *. apply orb_false_iff in Hn as [H1 H2]. rewrite Hc, IHcs; done.
  - done.
  - by rewrite Hn.
Qed.

Lemma walk_comments_id_list (d : string) (m : JsMap) (ns : list node) :
  has_directive d ns = false -> walk_comments d m ns = ns.
Proof.
  induction ns as [|n ns IH]; [done|]. unfold walk_comments, has_directive. simpl.
  intros [H1 H2]%orb_false_iff. rewrite walk_comments_id by done.
  simpl. f_equal. by apply IH.
Qed.

(** Without [replaceInline], the traversal leaves a document without
    directive comments as it is. *)
Lemma visit_clean (P : PluginObj) (f : nat) (n : node) :
  p_replaceInline P = false ->
  has_directive_node (p_generatorDirective P) n = false -> visit P f n = n.
Proof.
  intros Hri. revert f.
  induction n as [s cs IH|a p cs IH|p v|t] using node_ind'; intros [|f] Hn; try done; simpl.
  - unfold rule_listener. rewrite Hri, walk_comments_id_list by done. f_equal.
    induction IH as [|c cs Hc _ IHcs]; [done|].
    simpl in *. apply orb_false_iff in Hn as [H1 H2]. rewrite Hc, IHcs; done.
  - f_equal. induction IH as [|c cs Hc _ IHcs]; [done|].
    simpl in *. apply orb_false_iff in Hn as [H1 H2]. rewrite Hc, IHcs; done.
  - unfold Src.decl_listener. by rewrite Hri.
Qed.

Lemma visit_clean_list (P : PluginObj) (f : nat) (ns : list node) :
  p_replaceInline P = false ->
  has_directive (p_generatorDirective P) ns = false -> map (visit P f) ns = ns.
Proof.
  intros Hri. induction ns as [|n ns IH]; [done|]. simpl.
  intros [H1 H2]%orb_false_iff. rewrite visit_clean by done. f_equal. by apply IH.
Qed.

(** Inside a rule, the single-pass expansion is [walkComments]. *)
Lemma expand_in_rule (d : string) (m : JsMap) (n : node) :
  expand_node d m true n = walk_comments_node d m n.
Proof.
  induction n as [s cs IH|a p cs IH|p v|t] using node_ind'; simpl; try done.
  - do 2 f_equal. induction IH as [|c cs Hc _ IHcs]; [done|]. simpl. by rewrite Hc, IHcs.
  - do 2 f_equal. induction IH as [|c cs Hc _ IHcs]; [done|]. simpl. by rewrite Hc, IHcs.
Qed.

Lemma depth_child (c : node) (cs : list node) :
  In c cs -> depth c <= fold_right (fun c acc => Nat.max (depth c) acc) 0 cs.
Proof. induction cs as [|c' cs IH]; simpl; [done|]. intros [->|H]; [lia|]. specialize (IH H). lia. Qed.

Lemma visit_expand (P : PluginObj) (n : node) (f : nat) :
  p_replaceInline P = false -> depth n < f ->
  expand_node (p_generatorDirective P) (stepsMap P) false n = [visit P f n].
Proof.
  intros Hri. revert f.
  induction n as [s cs IH|a p cs IH|p v|t] using node_ind'; intros [|f] Hf; simpl in *; try lia.
  - unfold rule_listener. rewrite Hri. do 2 f_equal.
    rewrite visit_clean_list by (done || apply walk_comments_clean_list).
    unfold walk_comments. apply List.flat_map_ext. apply expand_in_rule.
  - do 2 f_equal. assert (forall c, In c cs -> depth c < f) as Hd
      by (intros c Hc; pose proof (depth_child c cs Hc); lia).
    clear Hf. induction IH as [|c cs Hc _ IHcs]; [done|]. simpl.
    rewrite (Hc f) by (apply Hd; by left). simpl. f_equal.
    apply IHcs. intros c' Hc'. apply Hd. by right.
  - unfold Src.decl_listener. rewrite Hri. reflexivity.
  - reflexivity.
Qed.

(** C5 (amended). Without [replaceInline], processing a document replaces
    every comment whose text is the directive and that lies inside a rule
    (at any depth) by one declaration per map entry, in map order, and
    changes nothing else: comments outside every rule (at the root, or
    directly inside an at-rule) stay, whatever their text.  A document
    without directive comments is unchanged.  With [replaceInline] the
    [Rule] listener does nothing. *)
Theorem directive_expansion (P : PluginObj) (root : list node) :
  (p_replaceInline P = false ->
     process P root = expand (p_generatorDirective P) (stepsMap P) root) /\
  (p_replaceInline P = false -> has_directive (p_generatorDirective P) root = false ->
     process P root = root) /\
  (p_replaceInline P = true -> forall cs, rule_listener P cs = cs).
Proof.
  split; [|split].
  - intros Hri. unfold process, Src.process, expand.
    assert (forall n, In n root -> depth n < S (depth_list root)) as Hd.
    { intros n Hn. pose proof (depth_child n root Hn). unfold depth_list. lia. }
    revert Hd. generalize (S (depth_list root)) as f. intros f Hd.
    induction root as [|n ns IH]; [done|]. simpl.
    rewrite (visit_expand P n f) by (done || (apply Hd; by left)). simpl. f_equal.
    apply IH. intros n' Hn'. apply Hd. by right.
  - intros Hri Hclean. unfold process, Src.process. by apply visit_clean_list.
  - intros Hri cs. unfold rule_listener. by rewrite Hri.
Qed.

Lemma vnode_ind' (Pv : vnode -> Prop) :
  (forall t val cs, Forall Pv cs -> Pv (VNode t val cs)) -> forall n, Pv n.
Proof.
  intros H. fix IH 1. intros [t val cs]. apply H.
  revert cs. fix IHl 1. intros [|c cs]; constructor; [apply IH|apply IHl].
Qed.

Lemma lastv_app (l1 l2 : list string) (v : string) :
  lastv (l1 ++ l2) v = lastv l2 (lastv l1 v).
Proof. unfold lastv. rewrite last_app. by destruct (last l2), (last l1). Qed.

Lemma found_app (m : JsMap) (w1 w2 : list string) :
  found m (w1 ++ w2) = found m w1 ++ found m w2.
Proof. unfold found. apply flat_map_app. Qed.

Section Walk.

Variable m : JsMap.
Hypothesis Hne : forall k x, map_get m k = Some x -> x <> "".

Lemma walk_fold (ns : list vnode) (v : string) :
  Forall (fun n => forall v, walk_node m n v = lastv (found m (words_node n)) v) ns ->
  fold_left (fun acc c => walk_node m c acc) ns v = lastv (found m (flat_map words_node ns)) v.
Proof.
  intros H. revert v. induction H as [|n ns Hn _ IH]; intros v; [done|].
  simpl. rewrite Hn, IH, found_app, lastv_app. reflexivity.
Qed.

(** [parsed.walk] leaves the value of the last word that is a key. *)
Lemma walk_node_last (n : vnode) (v : string) :
  walk_node m n v = lastv (found m (words_node n)) v.
Proof.
  revert v. induction n as [t val cs IH] using vnode_ind'. intros v. simpl.
  rewrite found_app, lastv_app.
  assert ((if String.eqb t "word" then
             match map_get m val with
             | Some x => if String.eqb x "" then v else x
             | None => v
             end
           else v) = lastv (found m (if String.eqb t "word" then [val] else [])) v) as ->.
  { destruct (String.eqb t "word"); [|done]. unfold found, lastv. simpl.
    destruct (map_get m val) as [x|] eqn:E; [|done].
    destruct (String.eqb_spec x ""); [by destruct (Hne _ _ E)|done]. }
  destruct (String.eqb t "function").
  - by apply walk_fold.
  - done.
Qed.

Lemma walk_values_last (ns : list vnode) (v : string) :
  walk_values m ns v = lastv (found m (words ns)) v.
Proof.
  apply walk_fold. apply Forall_forall. intros n _ v'. apply walk_node_last.
Qed.

End Walk.

Lemma generate_values_nonempty (c : Config) (m : JsMap) :
  generate c = Ok m -> forall k x, map_get m k = Some x -> x <> "".
Proof.
  intros Hg k x Hx. apply map_get_in in Hx.
  destruct (generate_ok_entries c m Hg _ Hx) as [s [_ Heq]].
  unfold entry, Src.entry in Heq. injection Heq as _ ->. discriminate.
Qed.

Lemma plugin_ok (opts : PartialConfig num) (dc dc' : Config) (P : PluginObj) :
  plugin opts dc = (Ok P, dc') -> generate (object_assign num dc opts) = Ok (stepsMap P).
Proof.
  unfold Src.plugin. destruct (generate _); [|done]. by intros [= <- _].
Qed.

(** C6. With [replaceInline], the [Declaration] listener of the plugin
    leaves a value that does not contain the prefix as it is; otherwise it
    tokenizes it and the value becomes the expression of the last "word"
    token (in walk order) that is a key of the map, or stays as it is when
    no token is a key.  Example: [var(--font-size-0)], tokenized as the
    function [var] around the word [--font-size-0], with prefix
    [font-size-] becomes the expression of [--font-size-0]. *)
Theorem inline_replacement (opts : PartialConfig num) (dc dc' : Config) (P : PluginObj) :
  plugin opts dc = (Ok P, dc') -> p_replaceInline P = true ->
  (forall v, decl_listener P v =
     if includes v (p_prefix P)
     then lastv (found (stepsMap P) (words (valueParser v))) v
     else v) /\
  (valueParser "var(--font-size-0)" =
     [VNode "function" "var" [VNode "word" "--font-size-0" []]] ->
   p_prefix P = "font-size-" ->
   forall e, map_get (stepsMap P) "--font-size-0" = Some e ->
   decl_listener P "var(--font-size-0)" = e).
Proof.
  intros Hp Hri.
  assert (forall v, decl_listener P v =
            if includes v (p_prefix P)
            then lastv (found (stepsMap P) (words (valueParser v))) v
            else v) as Hgen.
  { intros v. unfold Src.decl_listener. rewrite Hri. simpl.
    destruct (includes v (p_prefix P)); [|done].
    apply walk_values_last. eapply generate_values_nonempty, plugin_ok, Hp. }
  split; [exact Hgen|].
  intros Hvp Hpre e He. rewrite Hgen, Hpre, Hvp.
  unfold words, found, lastv. simpl. rewrite He. reflexivity.
Qed.

(** C7 (amended). With the default configuration and [{ unit: "px" }], the
    plugin produces the keys [--font-size--2] through [--font-size-5]
    (8 entries, powers [-2 .. 5]), each with an expression of the shape
    [clamp(<n>px,  <n>vw + <n>px , <n>px)], where each [<n>] is a
    [toFixed(2)] string. *)
Theorem default_px_scale :
  exists P, fst (plugin px_opts defaultConfig) = Ok P /\
    map fst (stepsMap P) =
      ["--font-size--2"; "--font-size--1"; "--font-size-0"; "--font-size-1";
       "--font-size-2"; "--font-size-3"; "--font-size-4"; "--font-size-5"] /\
    forall k v, In (k, v) (stepsMap P) ->
      exists a b d e, v = "clamp(" +:+ fmt a 2 +:+ "px,  " +:+ fmt b 2 +:+ "vw + " +:+
                          fmt d 2 +:+ "px , " +:+ fmt e 2 +:+ "px)".
Proof.
  destruct (plugin px_opts defaultConfig) as [r dc'] eqn:Ep.
  pose proof Ep as Ev. vm_compute in Ev. injection Ev as Hr _. subst r.
  eexists. split; [reflexivity|]. split; [reflexivity|].
  intros k v Hin.
  pose proof (plugin_ok _ _ _ _ Ep) as Hg.
  destruct (generate_ok_entries _ _ Hg _ Hin) as [s [_ Heq]].
  unfold entry, Src.entry, Src.step_out in Heq. injection Heq as _ ->.
  cbn [so_value]. eexists _, _, _, _. rewrite ?string_app_assoc. reflexivity.
Qed.

(** ** Further properties of the scale generator *)

Lemma map_get_set (m : JsMap) (k v k' : string) :
  map_get (map_set m k v) k' = if String.eqb k' k then Some v else map_get m k'.
Proof.
  induction m as [|[k0 v0] m IH]; simpl.
  - reflexivity.
  - destruct (String.eqb_spec k k0) as [->|Hne]; simpl.
    + by destruct (String.eqb k' k0).
    + rewrite IH. destruct (String.eqb_spec k' k0) as [->|]; [|done].
      destruct (String.eqb_spec k0 k); [congruence|done].
Qed.

Lemma map_set_keys (m : JsMap) (k v : string) :
  map fst (map_set m k v) = if existsb (String.eqb k) (map fst m) then map fst m
                            else map fst m ++ [k].
Proof.
  induction m as [|[k0 v0] m IH]; simpl; [done|].
  destruct (String.eqb_spec k k0) as [->|Hne]; simpl; [done|].
  rewrite IH. by destruct (existsb _ _).
Qed.

Lemma map_set_nodup (m : JsMap) (k v : string) :
  NoDup (map fst m) -> NoDup (map fst (map_set m k v)).
Proof.
  intros H. rewrite map_set_keys. destruct (existsb (String.eqb k) (map fst m)) eqn:E; [done|].
  apply NoDup_app. split; [done|]. split; [|apply NoDup_singleton].
  intros x Hx Hk%list_elem_of_singleton. subst x. apply list_elem_of_In in Hx.
  assert (existsb (String.eqb k) (map fst m) = true) as Hx'
    by (apply existsb_exists; exists k; split; [done|apply String.eqb_refl]).
  congruence.
Qed.

Lemma fold_last_value (k : string) (es : list (string * string)) (acc : option string) :
  fold_left (fun acc kv => if String.eqb kv.1 k then Some kv.2 else acc) es acc =
  match last_value k es with Some v => Some v | None => acc end.
Proof.
  unfold last_value. revert acc. induction es as [|[k0 v0] es IH]; intros acc; simpl; [done|].
  rewrite (IH (if String.eqb k0 k then Some v0 else acc)),
          (IH (if String.eqb k0 k then Some v0 else None)).
  destruct (fold_left _ es None); [done|]. by destruct (String.eqb k0 k).
Qed.

Lemma build_map_get (es : list (string * string)) (m0 : JsMap) (k : string) :
  map_get (fold_left (fun m kv => map_set m kv.1 kv.2) es m0) k =
  match last_value k es with Some v => Some v | None => map_get m0 k end.
Proof.
  revert m0. induction es as [|[k0 v0] es IH]; intros m0; simpl; [done|].
  rewrite IH, map_get_set.
  assert (last_value k ((k0, v0) :: es) =
          match last_value k es with
          | Some v => Some v
          | None => if String.eqb k0 k then Some v0 else None
          end) as -> by (unfold last_value at 1; cbn [fold_left]; apply fold_last_value).
  destruct (last_value k es); [done|].
  destruct (String.eqb_spec k k0), (String.eqb_spec k0 k); subst; congruence.
Qed.

Lemma build_map_nodup_keys (es : list (string * string)) (m0 : JsMap) :
  NoDup (map fst m0) -> NoDup (map fst (fold_left (fun m kv => map_set m kv.1 kv.2) es m0)).
Proof.
  revert m0. induction es as [|kv es IH]; intros m0 H; simpl; [done|].
  apply IH. by apply map_set_nodup.
Qed.

Lemma check_false_iff (c : Config) :
  is_values (suffixType c)
  && (Z.of_nat (length (suffixValues c)) <=? maxStep c + minStep c)%Z = false <->
  suffixes_ok c.
Proof.
  split; [|apply check_passes].
  unfold suffixes_ok, Src.suffixes_ok. intros H Ht. rewrite Ht in H. simpl in H.
  apply Z.leb_gt in H. lia.
Qed.

Lemma prec_ok_false (c : Config) :
  prec_ok c = false <-> (precision c < 0 \/ 100 < precision c)%Z.
Proof.
  unfold prec_ok, Src.prec_ok. rewrite andb_false_iff, !Z.leb_gt. lia.
Qed.

Lemma steps_nil (c : Config) : steps c = [] <-> (minStep c + maxStep c < 0)%Z.
Proof.
  unfold Src.steps.
  destruct (Z.to_nat (maxStep c + minStep c + 1)) eqn:E; simpl; split; intros H; try done; lia.
Qed.

(** [Map.prototype.set] as the loop uses it: the generated map never has two
    entries with one key, and for every key it holds the expression of the
    last step that computed that key (a later step overwrites an earlier one). *)
Theorem generate_map_last_wins (c : Config) (m : JsMap) :
  generate c = Ok m ->
  NoDup (map fst m) /\
  forall k, map_get m k = last_value k (map (entry c (conv_locals c)) (steps c)).
Proof.
  rewrite generate_eq. destruct (_ && _); [done|].
  destruct (prec_ok c).
  - intros [= <-]. unfold build_map. split.
    + apply build_map_nodup_keys. constructor.
    + intros k. rewrite build_map_get. by destruct (last_value _ _).
  - destruct (steps c); [|done]. intros [= <-]. split; [constructor|done].
Qed.

(** [toFixed] raises its [RangeError] exactly when the suffix check passes,
    [precision] is outside [0..100], and the loop runs at least once. *)
Theorem generate_range_error (c : Config) :
  generate c = Throw RangeError <->
  suffixes_ok c /\ (precision c < 0 \/ 100 < precision c)%Z /\ (0 <= minStep c + maxStep c)%Z.
Proof.
  rewrite generate_eq, <- check_false_iff, <- prec_ok_false.
  destruct (_ && _); [split; [done|intros [H _]; done]|].
  destruct (prec_ok c).
  - split; [done|intros [_ [H _]]; done].
  - destruct (steps c) eqn:Hs.
    + apply steps_nil in Hs. split; [done|lia].
    + assert (steps c <> []) as Hne by (rewrite Hs; done).
      rewrite steps_nil in Hne. split; [intros _; repeat split; lia|done].
Qed.

(** When [minStep + maxStep < 0] the loop does not run: the suffix check
    passes whatever the suffixes, no [toFixed] is called, and the map is
    empty. *)
Theorem generate_no_steps (c : Config) :
  (minStep c + maxStep c < 0)%Z -> generate c = Ok [].
Proof.
  intros H. rewrite generate_eq.
  assert (suffixes_ok c) as Hok
    by (unfold suffixes_ok, Src.suffixes_ok; intros _; lia).
  rewrite (check_passes c Hok).
  assert (steps c = []) as -> by (by apply steps_nil).
  by destruct (prec_ok c).
Qed.

(** With [unit: "px"] the map does not depend on [rootFontSize]. *)
Theorem generate_px_ignores_rootFontSize (c : Config) (r : num) :
  unit_ c = Px ->
  generate (object_assign num c
              (mkPartial None None None None None None None None None None (Some r)
                 None None None None None)) = generate c.
Proof.
  intros Hu. destruct c. simpl in Hu. subst. rewrite !generate_eq.
  unfold entry, Src.entry, Src.step_out, conv_locals, Src.conv_locals. simpl. reflexivity.
Qed.

(** With [suffixType: "numbered"] the map does not depend on
    [suffixValues]. *)
Theorem generate_numbered_ignores_suffixValues (c : Config) (sv : list string) :
  suffixType c = Numbered ->
  generate (object_assign num c
              (mkPartial None None None None None None None None None None None
                 None (Some sv) None None None)) = generate c.
Proof.
  intros Ht. destruct c. simpl in Ht. subst. rewrite !generate_eq.
  unfold entry, Src.entry, Src.step_out, conv_locals, Src.conv_locals. simpl. reflexivity.
Qed.

(** Every generated key is [--{prefix}] followed by the suffix, and every
    expression is [clamp(a{u},  b vw + c{u} , d{u})] with the unit [u] and
    four numbers printed by [toFixed(precision)]. *)
Theorem generate_entry_shape (c : Config) (m : JsMap) :
  generate c = Ok m -> forall k v, In (k, v) m ->
    (exists x, k = "--" +:+ prefix c +:+ x) /\
    exists a b d e,
      v = "clamp(" +:+ fmt a (precision c) +:+ unit_str (unit_ c) +:+ ",  " +:+
          fmt b (precision c) +:+ "vw + " +:+ fmt d (precision c) +:+ unit_str (unit_ c) +:+
          " , " +:+ fmt e (precision c) +:+ unit_str (unit_ c) +:+ ")".
Proof.
  intros Hg k v Hin.
  destruct (generate_ok_entries c m Hg _ Hin) as [s [_ Heq]].
  split.
  - assert (k = (entry c (conv_locals c) s).1) as -> by (by rewrite <- Heq).
    rewrite entry_key. destruct (suffixType c); eexists; reflexivity.
  - unfold entry, Src.entry, Src.step_out in Heq. injection Heq as _ ->.
    cbn [so_value]. eexists _, _, _, _. rewrite ?string_app_assoc. reflexivity.
Qed.

(** With [suffixType: "values"], every generated key is [--{prefix}x] for
    an element [x] of [suffixValues]: the suffix check keeps the loop inside
    the list, so no key ends in [undefined]. *)
Theorem generate_values_keys_in_list (c : Config) (m : JsMap) :
  generate c = Ok m -> suffixType c = Values ->
  forall k v, In (k, v) m -> exists x, In x (suffixValues c) /\ k = "--" +:+ prefix c +:+ x.
Proof.
  intros Hg Ht k v Hin.
  assert (suffixes_ok c) as Hok.
  { apply check_false_iff. rewrite generate_eq in Hg. by destruct (_ && _). }
  pose proof (Hok Ht) as Hlen.
  destruct (generate_ok_entries c m Hg _ Hin) as [s [Hs Heq]].
  apply in_steps in Hs.
  assert (k = (entry c (conv_locals c) s).1) as -> by (by rewrite <- Heq).
  rewrite entry_key, Ht. unfold suffix_at.
  rewrite (proj2 (Z.ltb_ge _ _)) by lia.
  destruct (suffixValues c !! Z.to_nat s) as [x|] eqn:E.
  - exists x. split; [|done]. apply list_elem_of_In. by apply list_elem_of_lookup_2 in E.
  - apply lookup_ge_None in E. lia.
Qed.

(** ** Further properties of the listeners and the traversal *)

Lemma walk_node_from_map (m : JsMap) (v : string) (n : vnode) (acc : string) :
  (acc = v \/ exists k, map_get m k = Some acc) ->
  let r := walk_node m n acc in r = v \/ exists k, map_get m k = Some r.
Proof.
  revert acc. induction n as [t val cs IH] using vnode_ind'. intros acc Hacc. simpl.
  set (v1 := if String.eqb t "word" then _ else acc).
  assert (v1 = v \/ exists k, map_get m k = Some v1) as Hv1.
  { subst v1. destruct (String.eqb t "word"); [|done].
    destruct (map_get m val) as [x|] eqn:E; [|done].
    destruct (String.eqb x ""); [done|]. right. by exists val. }
  clearbody v1. destruct (String.eqb t "function"); [|done].
  revert v1 Hv1. induction IH as [|c cs Hc _ IHcs]; intros v1 Hv1; [done|].
  simpl. apply IHcs. by apply Hc.
Qed.

Lemma walk_values_from_map (m : JsMap) (v : string) (ns : list vnode) (acc : string) :
  (acc = v \/ exists k, map_get m k = Some acc) ->
  let r := walk_values m ns acc in r = v \/ exists k, map_get m k = Some r.
Proof.
  unfold walk_values. revert acc.
  induction ns as [|n ns IH]; intros acc Hacc; [done|]. simpl.
  apply IH. by apply walk_node_from_map.
Qed.

(** The [Declaration] listener leaves a value either as it was or equal to
    an expression of the map: it never writes any other text. *)
Theorem decl_listener_result (P : PluginObj) (v : string) :
  decl_listener P v = v \/ exists k, map_get (stepsMap P) k = Some (decl_listener P v).
Proof.
  unfold Src.decl_listener. destruct (_ && _); [|by left].
  apply walk_values_from_map. by left.
Qed.

(** Without [replaceInline], the [Rule] listener leaves no comment whose
    text is the directive among the rule's descendants, and a rule without
    such a comment is left as it is. *)
Theorem rule_listener_directives (P : PluginObj) (cs : list node) :
  p_replaceInline P = false ->
  has_directive (p_generatorDirective P) (rule_listener P cs) = false /\
  (has_directive (p_generatorDirective P) cs = false -> rule_listener P cs = cs).
Proof.
  intros Hri. unfold rule_listener. rewrite Hri. split.
  - apply walk_comments_clean_list.
  - apply walk_comments_id_list.
Qed.

Lemma process_expand (P : PluginObj) (root : list node) :
  p_replaceInline P = false ->
  process P root = expand (p_generatorDirective P) (stepsMap P) root.
Proof.
  intros Hri. unfold process, Src.process, expand.
  assert (forall n, In n root -> depth n < S (depth_list root)) as Hd.
  { intros n Hn. pose proof (depth_child n root Hn). unfold depth_list. lia. }
  revert Hd. generalize (S (depth_list root)) as f. intros f Hd.
  induction root as [|n ns IH]; [done|]. simpl.
  rewrite (visit_expand P n f) by (done || (apply Hd; by left)). simpl. f_equal.
  apply IH. intros n' Hn'. apply Hd. by right.
Qed.

Lemma expand_decls (d : string) (m : JsMap) (b : bool) :
  flat_map (expand_node d m b) (decls_of m) = decls_of m.
Proof.
  unfold decls_of. generalize m at 2 3 as m'.
  induction m' as [|kv m' IH]; [done|]. simpl. by rewrite IH.
Qed.

Lemma expand_node_idem (d : string) (m : JsMap) (n : node) (b : bool) :
  flat_map (expand_node d m b) (expand_node d m b n) = expand_node d m b n.
Proof.
  revert b. induction n as [s cs IH|a p cs IH|p v|t] using node_ind'; intros b; simpl.
  - do 2 f_equal. induction IH as [|c cs Hc _ IHcs]; [done|]. simpl.
    by rewrite flat_map_app, Hc, IHcs.
  - do 2 f_equal. induction IH as [|c cs Hc _ IHcs]; [done|]. simpl.
    by rewrite flat_map_app, Hc, IHcs.
  - reflexivity.
  - destruct (b && String.eqb t d) eqn:E.
    + apply expand_decls.
    + simpl. by rewrite E.
Qed.

(** Without [replaceInline], processing a document a second time (as
    postcss does for the nodes a listener changed) changes nothing more. *)
Theorem process_idempotent (P : PluginObj) (root : list node) :
  p_replaceInline P = false -> process P (process P root) = process P root.
Proof.
  intros Hri. rewrite !process_expand by done. unfold expand.
  induction root as [|n ns IH]; [done|]. simpl.
  rewrite flat_map_app, expand_node_idem, IH. reflexivity.
Qed.

Lemma visit_inline (P : PluginObj) (n : node) (f : nat) :
  p_replaceInline P = true -> depth n < f ->
  visit P f n = map_values_node (decl_listener P) n.
Proof.
  intros Hri. revert f.
  induction n as [s cs IH|a p cs IH|p v|t] using node_ind'; intros [|f] Hf; simpl in *; try lia.
  - unfold rule_listener. rewrite Hri. f_equal.
    assert (forall c, In c cs -> depth c < f) as Hd
      by (intros c Hc; pose proof (depth_child c cs Hc); lia).
    clear Hf. induction IH as [|c cs Hc _ IHcs]; [done|]. simpl.
    rewrite (Hc f) by (apply Hd; by left). f_equal.
    apply IHcs. intros c' Hc'. apply Hd. by right.
  - f_equal.
    assert (forall c, In c cs -> depth c < f) as Hd
      by (intros c Hc; pose proof (depth_child c cs Hc); lia).
    clear Hf. induction IH as [|c cs Hc _ IHcs]; [done|]. simpl.
    rewrite (Hc f) by (apply Hd; by left). f_equal.
    apply IHcs. intros c' Hc'. apply Hd. by right.
  - reflexivity.
  - reflexivity.
Qed.

(** With [replaceInline], processing keeps every rule, at-rule and comment
    (directive comments included) and only passes each declaration's value
    through the [Declaration] listener. *)
Theorem process_inline_values (P : PluginObj) (root : list node) :
  p_replaceInline P = true ->
  process P root = map (map_values_node (decl_listener P)) root.
Proof.
  intros Hri. unfold process, Src.process.
  assert (forall n, In n root -> depth n < S (depth_list root)) as Hd.
  { intros n Hn. pose proof (depth_child n root Hn). unfold depth_list. lia. }
  revert Hd. generalize (S (depth_list root)) as f. intros f Hd.
  apply List.map_ext_in. intros n Hn. apply visit_inline; [done|]. by apply Hd.
Qed.

Lemma object_assign_no_opts (dc : Config) : object_assign num dc (no_opts num) = dc.
Proof. by destruct dc. Qed.

Lemma object_assign_assign (dc : Config) (a b : PartialConfig num) :
  object_assign num (object_assign num dc a) b = object_assign num dc (assign_opts a b).
Proof.
  destruct a, b. unfold object_assign, assign_opts. simpl.
  assert (forall A (d : A) x y, opt (opt d x) y = opt d (merge_opt x y)) as Hm
    by (intros A d x [y|]; reflexivity).
  rewrite !Hm. reflexivity.
Qed.

(** [Object.assign(defaultConfig, opts)] updates the module's defaults,
    whether or not the call then throws: after calls with the options
    [o1], ..., [on] in turn, the defaults are the original ones overridden
    by [o1], then [o2], and so on, a later call's property winning. *)
Theorem plugin_defaults_accumulate (optss : list (PartialConfig num)) (dc : Config) :
  fold_left (fun d o => snd (plugin o d)) optss dc =
  object_assign num dc (fold_left assign_opts optss (no_opts num)).
Proof.
  rewrite <- (object_assign_no_opts dc) at 1.
  generalize (no_opts num) as acc.
  induction optss as [|o optss IH]; intros acc; [done|]. simpl.
  rewrite <- IH. f_equal. unfold Src.plugin. simpl. apply object_assign_assign.
Qed.

End Proofs.

(** * The rational instance: witnesses and counterexamples *)

(** C1, at the defaults and step 0: the expression of the first entry. *)
Lemma generate_step_expression_witness :
  suffixes_ok Q QInst.defaults /\ prec_ok Q QInst.defaults = true /\
  (0 <= 0 <= minStep QInst.defaults + maxStep QInst.defaults)%Z /\
  exists es k, QInst.gen QInst.defaults = Ok (build_map es) /\
    es !! 0%nat = Some (k, "clamp(0.69rem,  0.01vw + 0.69rem , 0.70rem)").
Proof.
  assert (H1 : suffixes_ok Q QInst.defaults) by (intros H; discriminate).
  assert (H2 : prec_ok Q QInst.defaults = true) by reflexivity.
  assert (H3 : (0 <= 0 <= minStep QInst.defaults + maxStep QInst.defaults)%Z) by (cbn; lia).
  split; [exact H1|]. split; [exact H2|]. split; [exact H3|].
  pose proof (generate_step_expression Q QInst.qlit Qminus Qmult Qdiv Qpower Q_toFixed
                QInst.defaults 0%Z H1 H2 H3) as H.
  cbv zeta in H. destruct H as [es [k [Hg [_ He]]]].
  exists es, k. split; [exact Hg|]. change (Z.to_nat 0%Z) with 0%nat in He.
  rewrite He. do 2 f_equal; vm_compute; reflexivity.
Defined.

(** C1: the expression of the first default entry is not the one of the
    specification's template. *)
Lemma generate_step_expression_counterexample :
  exists m, QInst.gen QInst.defaults = Ok m /\
    map_get m "--font-size--2" = Some "clamp(0.69rem,  0.01vw + 0.69rem , 0.70rem)" /\
    map_get m "--font-size--2" <> Some (spec_clamp "0.69rem" "0.01" "0.69rem" "0.70rem").
Proof.
  destruct (QInst.gen QInst.defaults) as [m|e] eqn:E; vm_compute in E; [|discriminate].
  injection E as <-. eexists. split; [reflexivity|]. split; [reflexivity|].
  vm_compute. discriminate.
Qed.

(** C2, at the defaults: 8 entries. *)
Lemma generate_entry_count_witness :
  exists m, QInst.gen QInst.defaults = Ok m /\ Z.of_nat (length m) = 8%Z.
Proof.
  pose proof (generate_entry_count Q QInst.qlit Qminus Qmult Qdiv Qpower Q_toFixed
                QInst.defaults ltac:(cbn; lia) ltac:(cbn; lia)
                ltac:(intros H; discriminate) eq_refl ltac:(intros H; discriminate))
    as [m [Hg Hl]].
  exists m. split; [exact Hg|]. rewrite Hl. reflexivity.
Defined.

(** C2 and C4: with a repeated suffix the configuration passes the suffix
    check (8 suffixes for 8 steps), but the map has 7 entries, and its keys
    are not the prefixed suffixes in their order: the entry of [--font-size-xs]
    stays first and holds the expression of step 2. *)
Lemma generate_entry_count_counterexample :
  suffixes_ok Q QInst.dup /\ prec_ok Q QInst.dup = true /\
  exists m, QInst.gen QInst.dup = Ok m /\ length m = 7%nat.
Proof.
  split; [intros _; cbn; lia|]. split; [reflexivity|].
  destruct (QInst.gen QInst.dup) as [m|e] eqn:E; vm_compute in E; [|discriminate].
  injection E as <-. eexists. split; reflexivity.
Qed.

Lemma generate_keys_in_step_order_counterexample :
  exists m, QInst.gen QInst.dup = Ok m /\
    map fst m <> map (fun x => "--" +:+ prefix QInst.dup +:+ x)
                   (take (step_count Q QInst.dup) (suffixValues QInst.dup)) /\
    map fst m = ["--font-size-xs"; "--font-size-sm"; "--font-size-md"; "--font-size-lg";
                 "--font-size-xl"; "--font-size-xxl"; "--font-size-xxxl"] /\
    map_get m "--font-size-xs" = Some "clamp(1.00rem,  0.33vw + 0.93rem , 1.25rem)".
Proof.
  destruct (QInst.gen QInst.dup) as [m|e] eqn:E; vm_compute in E; [|discriminate].
  injection E as <-. eexists. split; [reflexivity|].
  split; [vm_compute; discriminate|]. split; reflexivity.
Qed.

(** C3, at [{ suffixType: "values", suffixValues: ["xs", "sm"] }]. *)
Lemma generate_config_error_witness :
  exists msg, QInst.gen QInst.short = Throw (ConfigurationError msg).
Proof.
  apply (proj2 (proj1 (generate_config_error Q QInst.qlit Qminus Qmult Qdiv Qpower Q_toFixed
                         QInst.short))).
  split; [reflexivity|]. cbn. lia.
Defined.

(** C4, at the defaults: the keys [--font-size--2] to [--font-size-5]. *)
Lemma generate_keys_in_step_order_witness :
  exists es, QInst.gen QInst.defaults = Ok es /\
    map fst es = ["--font-size--2"; "--font-size--1"; "--font-size-0"; "--font-size-1";
                  "--font-size-2"; "--font-size-3"; "--font-size-4"; "--font-size-5"].
Proof.
  pose proof (generate_keys_in_step_order Q QInst.qlit Qminus Qmult Qdiv Qpower Q_toFixed
                QInst.defaults ltac:(intros H; discriminate) eq_refl
                ltac:(intros H; discriminate)) as [es [Hg [_ [_ [_ [Hn _]]]]]].
  exists es. split; [exact Hg|]. rewrite (Hn eq_refl). vm_compute. reflexivity.
Defined.

(** C5, at the defaults: a directive comment inside a rule becomes the
    8 declarations. *)
Lemma directive_expansion_witness :
  exists P dc, QInst.plug (no_opts Q) QInst.defaults = (Ok P, dc) /\
    process QInst.vp P [Rule "a" [Comment "postcss-modular-type-generate"]] =
    [Rule "a" (decls_of (stepsMap P))] /\ length (stepsMap P) = 8%nat.
Proof.
  destruct (QInst.plug (no_opts Q) QInst.defaults) as [r dc] eqn:E.
  pose proof E as E'. vm_compute in E'. injection E' as Hr _. subst r.
  eexists _, dc. split; [reflexivity|]. split; [|reflexivity].
  rewrite (proj1 (directive_expansion QInst.vp _ _)); reflexivity.
Defined.

(** C5: a directive comment at the root of the document stays. *)
Lemma directive_expansion_counterexample :
  exists P dc, QInst.plug (no_opts Q) QInst.defaults = (Ok P, dc) /\
    p_replaceInline P = false /\ stepsMap P <> [] /\
    process QInst.vp P [Comment (p_generatorDirective P)] = [Comment (p_generatorDirective P)].
Proof.
  destruct (QInst.plug (no_opts Q) QInst.defaults) as [r dc] eqn:E.
  pose proof E as E'. vm_compute in E'. injection E' as Hr _. subst r.
  eexists _, dc. split; [reflexivity|]. split; [reflexivity|]. split; [discriminate|].
  reflexivity.
Qed.

(** C6, at [{ replaceInline: true }]: [var(--font-size-0)] becomes the
    expression of [--font-size-0]. *)
Lemma inline_replacement_witness :
  exists P dc, QInst.plug QInst.inline QInst.defaults = (Ok P, dc) /\
    decl_listener QInst.vp P "var(--font-size-0)" =
      "clamp(1.00rem,  0.33vw + 0.93rem , 1.25rem)".
Proof.
  destruct (QInst.plug QInst.inline QInst.defaults) as [r dc] eqn:E.
  pose proof E as E'. vm_compute in E'. injection E' as Hr _. subst r.
  eexists _, dc. split; [reflexivity|].
  pose proof (inline_replacement Q QInst.qlit Qminus Qmult Qdiv Qpower Q_toFixed QInst.vp
                QInst.inline QInst.defaults dc) as H.
  specialize (H _ E eq_refl).
  apply (proj2 H); vm_compute; reflexivity.
Defined.

(** C7: with [{ unit: "px" }] the 8 keys end at [--font-size-5]. *)
Lemma default_px_scale_counterexample :
  exists P, fst (QInst.plug QInst.px QInst.defaults) = Ok P /\
    length (stepsMap P) = 8%nat /\ last (map fst (stepsMap P)) = Some "--font-size-5" /\
    map_get (stepsMap P) "--font-size-5" = Some "clamp(39.81px,  3.65vw + 28.14px , 84.17px)".
Proof.
  destruct (fst (QInst.plug QInst.px QInst.defaults)) as [P|e] eqn:E;
    vm_compute in E; [|discriminate].
  injection E as <-. eexists. repeat split; reflexivity.
Qed.

(** C8. [Object.assign(defaultConfig, opts)] writes the options into the
    module's [defaultConfig]: after a call with [{ unit: "px" }], a call
    with [{}] resolves [unit] to ["px"], not to the default ["rem"], and
    produces a different map than a call with [{}] alone. *)
Theorem plugin_calls_share_defaults :
  let first := snd (QInst.plug QInst.px QInst.defaults) in
  unit_ (snd (QInst.plug (no_opts Q) first)) = Px /\
  unit_ (snd (QInst.plug (no_opts Q) QInst.defaults)) = Rem /\
  exists P1 P2, fst (QInst.plug (no_opts Q) first) = Ok P1 /\
    fst (QInst.plug (no_opts Q) QInst.defaults) = Ok P2 /\
    map_get (stepsMap P1) "--font-size-0" = Some "clamp(16.00px,  0.33vw + 14.95px , 20.00px)" /\
    map_get (stepsMap P2) "--font-size-0" = Some "clamp(1.00rem,  0.33vw + 0.93rem , 1.25rem)".
Proof.
  cbv zeta. split; [reflexivity|]. split; [reflexivity|].
  destruct (fst (QInst.plug (no_opts Q) (snd (QInst.plug QInst.px QInst.defaults))))
    as [P1|e1] eqn:E1; vm_compute in E1; [|discriminate].
  destruct (fst (QInst.plug (no_opts Q) QInst.defaults)) as [P2|e2] eqn:E2;
    vm_compute in E2; [|discriminate].
  injection E1 as <-. injection E2 as <-.
  eexists _, _. repeat split; reflexivity.
Qed.

(** C9, at the defaults: the base step is step 2, with [1.00rem] and
    [1.25rem]. *)
Lemma base_step_sizes_witness :
  exists o, step_entry Q QInst.qlit Qminus Qmult Qdiv Qpower Q_toFixed QInst.defaults 2%Z
              (conv_locals Q Qdiv QInst.defaults) = (Ok o, conv_locals Q Qdiv QInst.defaults) /\
    so_power o = 0%Z /\ so_fsMinFinal o = "1.00rem" /\ so_fsMaxFinal o = "1.25rem".
Proof.
  assert (Hp : forall x, Qpower x 0%Z = QInst.qlit 1) by (intros x; reflexivity).
  assert (Hm : forall x, Qmult x (QInst.qlit 1) = x).
  { intros [n d]. unfold QInst.qlit, Qmult. simpl. rewrite Z.mul_1_r, Pos.mul_1_r. reflexivity. }
  pose proof (base_step_sizes Q QInst.qlit Qminus Qmult Qdiv Qpower Q_toFixed Hp Hm
                QInst.defaults eq_refl ltac:(cbn; lia)) as H.
  cbv zeta in H. destruct H as [_ [o [He [Hpw [Hmin Hmax]]]]].
  exists o. split; [exact He|]. split; [exact Hpw|].
  split; [rewrite Hmin | rewrite Hmax]; vm_compute; reflexivity.
Defined.

(** C9: with [precision] 101 (a non-negative integer), [toFixed] raises
    at the base step, and no map is generated. *)
Lemma base_step_sizes_counterexample :
  (0 <= maxStep QInst.prec101 - minStep QInst.prec101 - 1
     <= minStep QInst.prec101 + maxStep QInst.prec101)%Z /\
  fst (step_entry Q QInst.qlit Qminus Qmult Qdiv Qpower Q_toFixed QInst.prec101 2%Z
         (conv_locals Q Qdiv QInst.prec101)) = Throw RangeError /\
  QInst.gen QInst.prec101 = Throw RangeError.
Proof. split; [cbn; lia|]. split; vm_compute; reflexivity. Qed.

(** C10, at [{ minStep: 5, maxStep: 2 }]: the keys are [--font-size-4] to
    [--font-size-11]. *)
Lemma powers_positive_witness :
  (baseIndex Q QInst.few < 0)%Z /\
  exists m, generate Q QInst.qlit Qminus Qmult Qdiv Qpower Q_toFixed QInst.few = Ok m /\
    forall k x, In (k, x) m ->
      exists p : positive, k = "--" +:+ prefix QInst.few +:+ pretty (Zpos p).
Proof.
  pose proof (powers_positive Q QInst.qlit Qminus Qmult Qdiv Qpower Q_toFixed QInst.few
                ltac:(cbn; lia)) as [Hb [_ Hk]].
  split; [exact Hb|].
  destruct (generate Q QInst.qlit Qminus Qmult Qdiv Qpower Q_toFixed QInst.few) as [m|e] eqn:E.
  - exists m. split; [reflexivity|]. intros k x Hin. exact (Hk m eq_refl eq_refl k x Hin).
  - vm_compute in E. discriminate.
Defined.

(** * Witnesses for the further properties *)

(** The map of the repeated-suffix configuration: [--font-size-xs] holds
    the expression of step 2, the last step with that key. *)
Lemma generate_map_last_wins_witness :
  exists m, generate Q QInst.qlit Qminus Qmult Qdiv Qpower Q_toFixed QInst.dup = Ok m /\
    NoDup (map fst m) /\
    map_get m "--font-size-xs" = Some "clamp(1.00rem,  0.33vw + 0.93rem , 1.25rem)".
Proof.
  destruct (generate Q QInst.qlit Qminus Qmult Qdiv Qpower Q_toFixed QInst.dup) as [m|e] eqn:E;
    [|vm_compute in E; discriminate].
  pose proof (generate_map_last_wins Q QInst.qlit Qminus Qmult Qdiv Qpower Q_toFixed
                QInst.dup m E) as [Hnd Hget].
  exists m. split; [reflexivity|]. split; [exact Hnd|].
  rewrite Hget. vm_compute. reflexivity.
Defined.

Lemma generate_no_steps_witness :
  (minStep QInst.nosteps + maxStep QInst.nosteps < 0)%Z /\
  generate Q QInst.qlit Qminus Qmult Qdiv Qpower Q_toFixed QInst.nosteps = Ok [].
Proof.
  assert (H : (minStep QInst.nosteps + maxStep QInst.nosteps < 0)%Z) by (cbn; lia).
  split; [exact H|].
  exact (generate_no_steps Q QInst.qlit Qminus Qmult Qdiv Qpower Q_toFixed QInst.nosteps H).
Defined.

Lemma generate_px_ignores_rootFontSize_witness :
  unit_ (object_assign Q QInst.defaults QInst.px) = Px /\
  generate Q QInst.qlit Qminus Qmult Qdiv Qpower Q_toFixed
    (object_assign Q (object_assign Q QInst.defaults QInst.px)
       (mkPartial None None None None None None None None None None (Some 10%Q)
          None None None None None)) =
  generate Q QInst.qlit Qminus Qmult Qdiv Qpower Q_toFixed
    (object_assign Q QInst.defaults QInst.px).
Proof.
  split; [reflexivity|].
  exact (generate_px_ignores_rootFontSize Q QInst.qlit Qminus Qmult Qdiv Qpower Q_toFixed
           (object_assign Q QInst.defaults QInst.px) 10%Q eq_refl).
Defined.

Lemma generate_numbered_ignores_suffixValues_witness :
  suffixType QInst.defaults = Numbered /\
  generate Q QInst.qlit Qminus Qmult Qdiv Qpower Q_toFixed
    (object_assign Q QInst.defaults
       (mkPartial None None None None None None None None None None None
          None (Some []) None None None)) =
  generate Q QInst.qlit Qminus Qmult Qdiv Qpower Q_toFixed QInst.defaults.
Proof.
  split; [reflexivity|].
  exact (generate_numbered_ignores_suffixValues Q QInst.qlit Qminus Qmult Qdiv Qpower Q_toFixed
           QInst.defaults [] eq_refl).
Defined.

Lemma generate_entry_shape_witness :
  exists m, generate Q QInst.qlit Qminus Qmult Qdiv Qpower Q_toFixed QInst.defaults = Ok m /\
    In ("--font-size-0", "clamp(1.00rem,  0.33vw + 0.93rem , 1.25rem)") m /\
    (exists x, "--font-size-0" = "--" +:+ prefix QInst.defaults +:+ x) /\
    exists a b d e,
      "clamp(1.00rem,  0.33vw + 0.93rem , 1.25rem)" =
      "clamp(" +:+ Q_toFixed a (precision QInst.defaults) +:+ unit_str (unit_ QInst.defaults) +:+
      ",  " +:+ Q_toFixed b (precision QInst.defaults) +:+ "vw + " +:+
      Q_toFixed d (precision QInst.defaults) +:+ unit_str (unit_ QInst.defaults) +:+ " , " +:+
      Q_toFixed e (precision QInst.defaults) +:+ unit_str (unit_ QInst.defaults) +:+ ")".
Proof.
  destruct (generate Q QInst.qlit Qminus Qmult Qdiv Qpower Q_toFixed QInst.defaults)
    as [m|e] eqn:E; [|vm_compute in E; discriminate].
  pose proof E as E'. vm_compute in E'. injection E' as Hm.
  assert (Hin : In ("--font-size-0", "clamp(1.00rem,  0.33vw + 0.93rem , 1.25rem)") m)
    by (rewrite <- Hm; right; right; left; reflexivity).
  exists m. split; [reflexivity|]. split; [exact Hin|].
  exact (generate_entry_shape Q QInst.qlit Qminus Qmult Qdiv Qpower Q_toFixed
           QInst.defaults m E _ _ Hin).
Defined.

Lemma generate_values_keys_in_list_witness :
  suffixType QInst.dup = Values /\
  exists m, generate Q QInst.qlit Qminus Qmult Qdiv Qpower Q_toFixed QInst.dup = Ok m /\
    forall k v, In (k, v) m ->
      exists x, In x (suffixValues QInst.dup) /\ k = "--" +:+ prefix QInst.dup +:+ x.
Proof.
  split; [reflexivity|].
  destruct (generate Q QInst.qlit Qminus Qmult Qdiv Qpower Q_toFixed QInst.dup)
    as [m|e] eqn:E; [|vm_compute in E; discriminate].
  exists m. split; [reflexivity|].
  exact (generate_values_keys_in_list Q QInst.qlit Qminus Qmult Qdiv Qpower Q_toFixed
           QInst.dup m E eq_refl).
Defined.

(** A directive comment inside an at-rule of the rule is replaced too. *)
Lemma rule_listener_directives_witness :
  rule_listener (mkPlugin [("--a", "1")] "a" false "gen")
    [AtRule "media" "x" [Comment "gen"]; Comment "other"] =
    [AtRule "media" "x" [Decl "--a" "1"]; Comment "other"] /\
  has_directive "gen" (rule_listener (mkPlugin [("--a", "1")] "a" false "gen")
                         [AtRule "media" "x" [Comment "gen"]; Comment "other"]) = false.
Proof.
  split; [reflexivity|].
  exact (proj1 (rule_listener_directives (mkPlugin [("--a", "1")] "a" false "gen")
                  [AtRule "media" "x" [Comment "gen"]; Comment "other"] eq_refl)).
Defined.

Lemma process_idempotent_witness :
  process QInst.vp (mkPlugin [("--a", "1")] "a" false "gen")
    (process QInst.vp (mkPlugin [("--a", "1")] "a" false "gen")
       [Rule "r" [Comment "gen"; Decl "x" "y"]; Comment "gen"]) =
  process QInst.vp (mkPlugin [("--a", "1")] "a" false "gen")
    [Rule "r" [Comment "gen"; Decl "x" "y"]; Comment "gen"] /\
  process QInst.vp (mkPlugin [("--a", "1")] "a" false "gen")
    [Rule "r" [Comment "gen"; Decl "x" "y"]; Comment "gen"] =
  [Rule "r" [Decl "--a" "1"; Decl "x" "y"]; Comment "gen"].
Proof.
  split; [|reflexivity].
  exact (process_idempotent QInst.vp (mkPlugin [("--a", "1")] "a" false "gen")
           [Rule "r" [Comment "gen"; Decl "x" "y"]; Comment "gen"] eq_refl).
Defined.

Lemma process_inline_values_witness :
  process QInst.vp (mkPlugin [("--font-size-0", "1rem")] "font-size-" true "gen")
    [Rule "r" [Comment "gen"; Decl "x" "var(--font-size-0)"]] =
  map (map_values_node (decl_listener QInst.vp
         (mkPlugin [("--font-size-0", "1rem")] "font-size-" true "gen")))
    [Rule "r" [Comment "gen"; Decl "x" "var(--font-size-0)"]] /\
  process QInst.vp (mkPlugin [("--font-size-0", "1rem")] "font-size-" true "gen")
    [Rule "r" [Comment "gen"; Decl "x" "var(--font-size-0)"]] =
  [Rule "r" [Comment "gen"; Decl "x" "1rem"]].
Proof.
  split; [|vm_compute; reflexivity].
  exact (process_inline_values QInst.vp
           (mkPlugin [("--font-size-0", "1rem")] "font-size-" true "gen")
           [Rule "r" [Comment "gen"; Decl "x" "var(--font-size-0)"]] eq_refl).
Defined.
